(** * Subtitle Shifter: the cue timing-shift engine and its timestamp codec

    A shallow embedding of

    - [src/utils/srt-shifter.js]  ([shiftTime], [parseTimestamp],
      [formatTimestamp]),
    - [src/routes/api.js]         (the [POST /api/shift] handler),
    - the Electron main process   (its own copies of the three functions and
      the ['shift-subtitles'] IPC handler),

    followed by the properties of the specification that concern them.

    Conventions of the embedding.

    - A JavaScript string is the list of its UTF-16 code units.
    - A JavaScript number holding an integer is a [Z].  In [SrtShifter],
      [Api] and [Main] sums and products are the exact ones: the results are
      the ones of the program as long as the values stay inside the range in
      which doubles are exact.  [Binary64] and [ApiShift] give the same
      functions with the rounding of the program, and the properties that
      depend on the size of the numbers are stated on them.  [NaN] is not
      represented: the only place it could come from, [parseInt] on a text
      without a leading digit, is never reached because [parseInt] is only
      applied to [\d] capture groups.
    - [null] default arguments are [None]. *)

From Stdlib Require Import String Ascii.
From Stdlib Require Import ZArith NArith List Bool Lia Sorted.
Import ListNotations.

Set Implicit Arguments.

Local Open Scope Z_scope.

(* ================================================================= *)
(** ** JavaScript primitives used by the program *)

Module JS.

(** UTF-16 code units and strings. *)
Definition code := N.
Definition jsstring := list code.

(** A literal of the source, read code unit by code unit. *)
Definition lit (s : string) : jsstring :=
  map N_of_ascii (list_ascii_of_string s).

(** The values a handler may find in a request field. *)
Inductive value :=
| VUndefined
| VNull
| VBool (b : bool)
| VNumber (n : Z)
| VString (s : jsstring)
| VObject.

(** [!v] is [negb (truthy v)]. *)
Definition truthy (v : value) : bool :=
  match v with
  | VUndefined | VNull => false
  | VBool b => b
  | VNumber n => negb (n =? 0)
  | VString s => match s with [] => false | _ :: _ => true end
  | VObject => true
  end.

(** [typeof v === 'string'] *)
Definition typeof_string (v : value) : bool :=
  match v with VString _ => true | _ => false end.

(** [v === <string literal>] *)
Definition strict_eq_lit (v : value) (l : jsstring) : bool :=
  match v with
  | VString s => if list_eq_dec N.eq_dec s l then true else false
  | _ => false
  end.

(** [\d] : the ASCII digits only. *)
Definition is_digit (c : code) : bool := ((48 <=? c) && (c <=? 57))%N.

Definition digit_val (c : code) : Z := Z.of_N c - 48.

(** WhiteSpace and LineTerminator code units, the ones [trim] removes. *)
Definition is_space (c : code) : bool :=
  ((9 <=? c) && (c <=? 13)
   || (c =? 32) || (c =? 160) || (c =? 5760)
   || (8192 <=? c) && (c <=? 8202)
   || (c =? 8232) || (c =? 8233) || (c =? 8239) || (c =? 8287)
   || (c =? 12288) || (c =? 65279))%N.

Fixpoint trimStart (s : jsstring) : jsstring :=
  match s with
  | c :: s' => if is_space c then trimStart s' else s
  | [] => []
  end.

Definition trimEnd (s : jsstring) : jsstring := rev (trimStart (rev s)).

(** [s.trim()] *)
Definition trim (s : jsstring) : jsstring := trimEnd (trimStart s).

(** [parseInt(s, 10)] on a text that starts with a digit: the value of its
    leading run of digits. *)
Fixpoint parseInt_from (acc : Z) (s : jsstring) : Z :=
  match s with
  | c :: s' =>
      if is_digit c then parseInt_from (acc * 10 + digit_val c) s' else acc
  | [] => acc
  end.

Definition parseInt (s : jsstring) : Z := parseInt_from 0 s.

(** Decimal digits of a non-negative integer, most significant first.
    [fuel] bounds the number of digits. *)
Fixpoint digits_from (fuel : nat) (n : Z) (acc : jsstring) : jsstring :=
  let acc' := Z.to_N (48 + n mod 10) :: acc in
  match fuel with
  | O => acc'
  | S fuel' => if n <? 10 then acc' else digits_from fuel' (n / 10) acc'
  end.

Definition digits (n : Z) : jsstring :=
  digits_from (Z.to_nat (Z.log2 n)) n [].

(** [n.toString()] for an integer [n]. *)
Definition toString (n : Z) : jsstring :=
  if n <? 0 then 45%N :: digits (- n) else digits n.

(** [s.padStart(target, '0')] *)
Definition padStart (target : nat) (s : jsstring) : jsstring :=
  repeat 48%N (target - length s) ++ s.

(** [Math.floor(a / b)] for integers [a] and [b > 0], and [a % b]. *)
Definition floor_div (a b : Z) : Z := a / b.
Definition remainder (a b : Z) : Z := Z.rem a b.

(** A computation that may [throw new Error(message)]. *)
Inductive completion (A : Type) :=
| Normal (a : A)
| Throw (message : string).
Arguments Throw {A} message.

Definition bind {A B} (m : completion A) (k : A -> completion B)
  : completion B :=
  match m with
  | Normal a => k a
  | Throw e => Throw e
  end.

End JS.
Import JS.

(* ================================================================= *)
(** ** The regular expressions of [parseTimestamp] *)

Module Regex.

(** The four literals are sequences of capturing digit groups
    [(\d{lo,hi})] (or [(\d+)], with no upper bound) and of single
    characters taken from a set ([:] or [[,.]]), anchored by [^] and [$]. *)
Inductive atom :=
| Digits (lo : nat) (hi : option nat)
| OneOf (cs : jsstring).

Definition regex := list atom.

Definition mem (c : code) (cs : jsstring) : bool := existsb (N.eqb c) cs.

(** Length of the leading run of digits. *)
Fixpoint digit_span (s : jsstring) : nat :=
  match s with
  | c :: s' => if is_digit c then S (digit_span s') else O
  | [] => O
  end.

(** Greedy quantifier: try [k] repetitions, then [k - 1], ... down to
    [lo]. *)
Fixpoint backtrack {A} (try : nat -> option A) (lo k : nat) : option A :=
  if (k <? lo)%nat then None
  else match try k with
       | Some r => Some r
       | None => match k with
                 | O => None
                 | S k' => backtrack try lo k'
                 end
       end.

(** The captures of the groups, in order, when the whole text matches. *)
Fixpoint exec (r : regex) (s : jsstring) : option (list jsstring) :=
  match r with
  | [] => match s with [] => Some [] | _ :: _ => None end
  | OneOf cs :: r' =>
      match s with
      | c :: s' => if mem c cs then exec r' s' else None
      | [] => None
      end
  | Digits lo hi :: r' =>
      let run := digit_span s in
      let top := match hi with Some h => Nat.min h run | None => run end in
      backtrack
        (fun k => option_map (cons (firstn k s)) (exec r' (skipn k s)))
        lo top
  end.

(** [s.match(r)]: [null], or the array of the whole match followed by the
    captures. *)
Definition str_match (s : jsstring) (r : regex) : option (list jsstring) :=
  option_map (cons s) (exec r s).

(** [m[i]] *)
Definition group (m : list jsstring) (i : nat) : jsstring := nth i m [].

(** What it means for a text to match, independently of the search. *)
Inductive matches : regex -> jsstring -> list jsstring -> Prop :=
| matches_end : matches [] [] []
| matches_one cs c r s caps :
    mem c cs = true ->
    matches r s caps ->
    matches (OneOf cs :: r) (c :: s) caps
| matches_digits lo hi r d s caps :
    forallb is_digit d = true ->
    (lo <= length d)%nat ->
    (forall h, hi = Some h -> (length d <= h)%nat) ->
    matches r s caps ->
    matches (Digits lo hi :: r) (d ++ s) (d :: caps).

End Regex.
Import Regex.

(* ================================================================= *)
(** ** [src/utils/srt-shifter.js] *)

Record cue := Cue {
  index : Z;
  start : Z;
  end_ : Z;
  text : jsstring
}.

Module SrtShifter.

Definition shiftTime (cues : list cue) (offsetMs : Z)
           (startTimeMs endTimeMs : option Z) : list cue :=
  let isPartialShift :=
    match startTimeMs, endTimeMs with
    | Some _, Some _ => true
    | _, _ => false
    end in
  map (fun cue =>
         let cueInRange :=
           negb isPartialShift ||
           match startTimeMs, endTimeMs with
           | Some startTimeMs, Some endTimeMs =>
               (start cue >=? startTimeMs) && (start cue <=? endTimeMs)
           | _, _ => false
           end in
         if negb cueInRange then
           Cue (index cue) (start cue) (end_ cue) (text cue)
         else
           let newStart := Z.max 0 (start cue + offsetMs) in
           let newEnd := Z.max 0 (end_ cue + offsetMs) in
           Cue (index cue) newStart (Z.max newStart newEnd) (text cue))
      cues.

Definition colon : atom := OneOf (lit ":").

(** [/^(\d{1,2}):(\d{2}):(\d{2})[,.](\d{3})$/] *)
Definition fullRe : regex :=
  [Digits 1 (Some 2%nat); colon; Digits 2 (Some 2%nat); colon;
   Digits 2 (Some 2%nat); OneOf (lit ",."); Digits 3 (Some 3%nat)].

(** [/^(\d{1,2}):(\d{2}):(\d{2})$/] *)
Definition hmsRe : regex :=
  [Digits 1 (Some 2%nat); colon; Digits 2 (Some 2%nat); colon;
   Digits 2 (Some 2%nat)].

(** [/^(\d{1,2}):(\d{2})$/] *)
Definition msRe : regex :=
  [Digits 1 (Some 2%nat); colon; Digits 2 (Some 2%nat)].

(** [/^(\d+)$/] *)
Definition secondsRe : regex := [Digits 1 None].

Definition parseTimestamp (timestamp : value) : Z :=
  if negb (truthy timestamp) || negb (typeof_string timestamp) then 0
  else
    match timestamp with
    | VString s =>
        let trimmed := trim s in
        match str_match trimmed fullRe with
        | Some fullMatch =>
            parseInt (group fullMatch 1) * 3600000 +
            parseInt (group fullMatch 2) * 60000 +
            parseInt (group fullMatch 3) * 1000 +
            parseInt (group fullMatch 4)
        | None =>
        match str_match trimmed hmsRe with
        | Some hmsMatch =>
            parseInt (group hmsMatch 1) * 3600000 +
            parseInt (group hmsMatch 2) * 60000 +
            parseInt (group hmsMatch 3) * 1000
        | None =>
        match str_match trimmed msRe with
        | Some msMatch =>
            parseInt (group msMatch 1) * 60000 +
            parseInt (group msMatch 2) * 1000
        | None =>
        match str_match trimmed secondsRe with
        | Some secondsMatch => parseInt (group secondsMatch 1) * 1000
        | None => 0
        end end end end
    | _ => 0
    end.

Definition formatTimestamp (ms : Z) : jsstring :=
  let hours := floor_div ms 3600000 in
  let minutes := floor_div (remainder ms 3600000) 60000 in
  let seconds := floor_div (remainder ms 60000) 1000 in
  let milliseconds := remainder ms 1000 in
  padStart 2 (toString hours) ++ lit ":" ++
  padStart 2 (toString minutes) ++ lit ":" ++
  padStart 2 (toString seconds) ++ lit "," ++
  padStart 3 (toString milliseconds).

End SrtShifter.

(* ================================================================= *)
(** ** The cue objects exchanged with the user interface *)

Module Wire.

(** [{ index, start, end, startMs, endMs, text }]: the times both as
    formatted text and as milliseconds. *)
Record cue := Cue {
  index : Z;
  start : jsstring;
  end_ : jsstring;
  startMs : Z;
  endMs : Z;
  text : jsstring
}.

End Wire.

(* ================================================================= *)
(** ** [src/routes/api.js]: [POST /api/shift] *)

Module Api.

Import SrtShifter.

(** [req.body].  [cues] is [None] when the field is missing or is not an
    array, [offsetMs] is [None] when it is not a number or is [NaN].  The
    elements of [cues] are cue objects here, so that nothing throws inside
    the [try]; [ApiShift] below is the handler for arrays that may hold
    [null], with its [catch]. *)
Record shiftBody := ShiftBody {
  cues : option (list Wire.cue);
  offsetMs : option Z;
  mode : value;
  startTime : value;
  endTime : value
}.

Inductive json :=
| ErrorJson (error message : string)
| ShiftJson (offsetMs : Z) (mode : value) (cues : list Wire.cue).

Record response := Response { status : Z; body : json }.

(** The objects of the response, [{ index, start: formatTimestamp(cue.start),
    end: formatTimestamp(cue.end), startMs, endMs, text }]. *)
Definition toWire (cue : cue) : Wire.cue :=
  Wire.Cue (index cue)
           (formatTimestamp (start cue)) (formatTimestamp (end_ cue))
           (start cue) (end_ cue) (text cue).

(** [{ index, start: cue.startMs, end: cue.endMs, text }] *)
Definition fromWire (c : Wire.cue) : cue :=
  Cue (Wire.index c) (Wire.startMs c) (Wire.endMs c) (Wire.text c).

(** [mode || 'full'] *)
Definition modeOrFull (mode : value) : value :=
  if truthy mode then mode else VString (lit "full").

Definition shift (req : shiftBody) : response :=
  match cues req with
  | None | Some [] =>
      Response 400 (ErrorJson "Invalid cues" "No subtitle data provided")
  | Some cues =>
      match offsetMs req with
      | None =>
          Response 400
            (ErrorJson "Invalid offset"
                       "Please enter a valid time offset in milliseconds")
      | Some offsetMs =>
          let parsedCues := map fromWire cues in
          let ok shiftedCues :=
            Response 200
              (ShiftJson offsetMs (modeOrFull (mode req))
                         (map toWire shiftedCues)) in
          if strict_eq_lit (mode req) (lit "partial") then
            let startMs := parseTimestamp (startTime req) in
            let endMs := parseTimestamp (endTime req) in
            if startMs >? endMs then
              Response 400
                (ErrorJson "Invalid range"
                           "Start time must be before end time")
            else ok (shiftTime parsedCues offsetMs (Some startMs) (Some endMs))
          else ok (shiftTime parsedCues offsetMs None None)
      end
  end.

End Api.

(* ================================================================= *)
(** ** The Electron main process *)

Module Main.

(** The main process does not import [srt-shifter.js]: it defines the
    functions again. *)

Definition shiftTime (cues : list cue) (offsetMs : Z)
           (startTimeMs endTimeMs : option Z) : list cue :=
  let isPartialShift :=
    match startTimeMs, endTimeMs with
    | Some _, Some _ => true
    | _, _ => false
    end in
  map (fun cue =>
         let cueInRange :=
           negb isPartialShift ||
           match startTimeMs, endTimeMs with
           | Some startTimeMs, Some endTimeMs =>
               (start cue >=? startTimeMs) && (start cue <=? endTimeMs)
           | _, _ => false
           end in
         if negb cueInRange then
           Cue (index cue) (start cue) (end_ cue) (text cue)
         else
           let newStart := Z.max 0 (start cue + offsetMs) in
           let newEnd := Z.max 0 (end_ cue + offsetMs) in
           Cue (index cue) newStart (Z.max newStart newEnd) (text cue))
      cues.

Definition formatTimestamp (ms : Z) : jsstring :=
  let hours := floor_div ms 3600000 in
  let minutes := floor_div (remainder ms 3600000) 60000 in
  let seconds := floor_div (remainder ms 60000) 1000 in
  let milliseconds := remainder ms 1000 in
  padStart 2 (toString hours) ++ lit ":" ++
  padStart 2 (toString minutes) ++ lit ":" ++
  padStart 2 (toString seconds) ++ lit "," ++
  padStart 3 (toString milliseconds).

(** Only the first two literals of [srt-shifter.js] are tried here. *)
Definition parseTimestamp (timestamp : value) : Z :=
  if negb (truthy timestamp) || negb (typeof_string timestamp) then 0
  else
    match timestamp with
    | VString s =>
        let trimmed := trim s in
        match str_match trimmed SrtShifter.fullRe with
        | Some fullMatch =>
            parseInt (group fullMatch 1) * 3600000 +
            parseInt (group fullMatch 2) * 60000 +
            parseInt (group fullMatch 3) * 1000 +
            parseInt (group fullMatch 4)
        | None =>
        match str_match trimmed SrtShifter.hmsRe with
        | Some hmsMatch =>
            parseInt (group hmsMatch 1) * 3600000 +
            parseInt (group hmsMatch 2) * 60000 +
            parseInt (group hmsMatch 3) * 1000
        | None => 0
        end end
    | _ => 0
    end.

(** The argument of the ['shift-subtitles'] handler, as the renderer sends
    it: the loaded cues and an integer offset. *)
Record shiftArgs := ShiftArgs {
  cues : list Wire.cue;
  offsetMs : Z;
  mode : value;
  startTime : value;
  endTime : value
}.

Inductive reply :=
| ErrorReply (message : string)
| ShiftReply (offsetMs : Z) (mode : value) (cues : list Wire.cue).

Definition toWire (cue : cue) : Wire.cue :=
  Wire.Cue (index cue)
           (formatTimestamp (start cue)) (formatTimestamp (end_ cue))
           (start cue) (end_ cue) (text cue).

(** The body of the [try] block. *)
Definition shiftSubtitles_try (a : shiftArgs) : completion reply :=
  let parsedCues := map Api.fromWire (cues a) in
  bind
    (if strict_eq_lit (mode a) (lit "partial") then
       let startMs := parseTimestamp (startTime a) in
       let endMs := parseTimestamp (endTime a) in
       if startMs >? endMs then Throw "Start time must be before end time"
       else Normal (shiftTime parsedCues (offsetMs a)
                              (Some startMs) (Some endMs))
     else Normal (shiftTime parsedCues (offsetMs a) None None))
    (fun shiftedCues =>
       Normal (ShiftReply (offsetMs a) (Api.modeOrFull (mode a))
                          (map toWire shiftedCues))).

(** [catch (error) { return { error: true, message: error.message || ... } }] *)
Definition shiftSubtitles (a : shiftArgs) : reply :=
  match shiftSubtitles_try a with
  | Normal r => r
  | Throw message =>
      ErrorReply (if String.eqb message "" then "Failed to shift subtitles"
                  else message)
  end.

End Main.

(* ================================================================= *)
(** ** Vocabulary of the specification *)

(** The cue is one that the given call shifts: every cue without a window,
    the cues that start inside the closed window otherwise. *)
Definition selected (window : option Z * option Z) (c : cue) : Prop :=
  match window with
  | (Some windowStart, Some windowEnd) => windowStart <= start c <= windowEnd
  | _ => True
  end.

(** The times of [c'] are the clamped shift of the times of [c]. *)
Definition clamped_shift (offsetMs : Z) (c c' : cue) : Prop :=
  start c' = Z.max 0 (start c + offsetMs) /\
  end_ c' = Z.max (start c') (Z.max 0 (end_ c + offsetMs)).

(** [start >= 0] and [end >= start]. *)
Definition well_timed (c : cue) : Prop := 0 <= start c /\ start c <= end_ c.

(** None of the three [Math.max] of [shiftTime] changes a value when [c] is
    shifted by [k]. *)
Definition no_clamp (k : Z) (c : cue) : Prop :=
  Z.max 0 (start c + k) = start c + k /\
  Z.max 0 (end_ c + k) = end_ c + k /\
  Z.max (start c + k) (end_ c + k) = end_ c + k.

(** Data of the scenarios. *)
Definition hello : cue := Cue 1 5000 7000 (lit "Hello").

Definition three_cues : list cue :=
  [Cue 1 1000 3000 (lit "one"); Cue 2 20000 23000 (lit "two");
   Cue 3 50000 52000 (lit "three")].


Definition zero_cue : cue := Cue 1 0 0 (lit "Hello").

(** The value of a text of decimal digits. *)
Definition decimal (d : jsstring) : Z :=
  fold_left (fun acc c => acc * 10 + digit_val c) d 0.

(** Between [lo] and [hi] characters, all of them digits. *)
Definition digit_text (lo hi : nat) (d : jsstring) : Prop :=
  forallb is_digit d = true /\ (lo <= length d <= hi)%nat.

(** The four timestamp forms of the specification, each with the number of
    milliseconds it stands for:
    [H:MM:SS,mmm] or [H:MM:SS.mmm], [H:MM:SS], [M:SS], and whole seconds. *)
Inductive recognized : jsstring -> Z -> Prop :=
| recognized_full hours minutes seconds ms sep :
    digit_text 1 2 hours -> digit_text 2 2 minutes ->
    digit_text 2 2 seconds -> digit_text 3 3 ms ->
    In sep (lit ",.") ->
    recognized
      (hours ++ lit ":" ++ minutes ++ lit ":" ++ seconds ++ [sep] ++ ms)
      (decimal hours * 3600000 + decimal minutes * 60000 +
       decimal seconds * 1000 + decimal ms)
| recognized_hms hours minutes seconds :
    digit_text 1 2 hours -> digit_text 2 2 minutes ->
    digit_text 2 2 seconds ->
    recognized
      (hours ++ lit ":" ++ minutes ++ lit ":" ++ seconds)
      (decimal hours * 3600000 + decimal minutes * 60000 +
       decimal seconds * 1000)
| recognized_ms minutes seconds :
    digit_text 1 2 minutes -> digit_text 2 2 seconds ->
    recognized
      (minutes ++ lit ":" ++ seconds)
      (decimal minutes * 60000 + decimal seconds * 1000)
| recognized_seconds value :
    forallb is_digit value = true -> value <> [] ->
    recognized value (decimal value * 1000).

(** The characters of the expression that are not digit groups are not
    digits, and no two digit groups are adjacent: a text then matches in at
    most one way. *)
Fixpoint delimited (r : regex) : bool :=
  match r with
  | [] => true
  | OneOf cs :: r' => forallb (fun c => negb (is_digit c)) cs && delimited r'
  | Digits _ _ :: r' =>
      match r' with Digits _ _ :: _ => false | _ => true end && delimited r'
  end.

(** The number of characters of a text that are not digits, and the number
    of single characters an expression asks for. *)
Definition separators (s : jsstring) : nat :=
  length (filter (fun c => negb (is_digit c)) s).

Definition singles (r : regex) : nat :=
  length (filter (fun a => match a with OneOf _ => true | _ => false end) r).


(* ================================================================= *)
(** ** The rest of the program: files in, files out *)

(** [Array.prototype.map] with the index, [s.replace(search, replacement)]
    for a replacement without [$], and [s.split(sep).pop()]. *)
Module JSLib.

Fixpoint mapi_from {A B} (f : A -> Z -> B) (i : Z) (l : list A) : list B :=
  match l with
  | [] => []
  | a :: l' => f a i :: mapi_from f (i + 1) l'
  end.

Definition mapi {A B} (f : A -> Z -> B) (l : list A) : list B :=
  mapi_from f 0 l.

Fixpoint startsWith (search s : jsstring) : bool :=
  match search, s with
  | [], _ => true
  | _ :: _, [] => false
  | p :: search', c :: s' => (p =? c)%N && startsWith search' s'
  end.

(** Only the first occurrence is replaced. *)
Fixpoint replace (search replacement s : jsstring) : jsstring :=
  if startsWith search s then replacement ++ skipn (length search) s
  else match s with
       | [] => []
       | c :: s' => c :: replace search replacement s'
       end.

Fixpoint split (sep : code) (s : jsstring) : list jsstring :=
  match s with
  | [] => [[]]
  | c :: s' =>
      if (c =? sep)%N then [] :: split sep s'
      else match split sep s' with
           | piece :: pieces => (c :: piece) :: pieces
           | [] => [[c]]
           end
  end.

(** [pieces.pop()] of an array that is never empty. *)
Definition pop (pieces : list jsstring) : jsstring := last pieces [].

End JSLib.

(** The nodes of the [subtitle] library. *)
Module Subtitle.

(** The data of a cue node, [{ start, end, text, settings? }]. *)
Record cueData := CueData {
  start : Z;
  end_ : Z;
  text : jsstring;
  settings : option jsstring
}.

(** [{ type: 'cue', data }] or [{ type: 'header', data }]. *)
Inductive node :=
| CueNode (data : cueData)
| HeaderNode (data : jsstring).

(** [nodes.filter(node => node.type === 'cue')], each kept node given by
    its [data]. *)
Fixpoint cueNodes (nodes : list node) : list cueData :=
  match nodes with
  | [] => []
  | CueNode data :: nodes' => data :: cueNodes nodes'
  | HeaderNode _ :: nodes' => cueNodes nodes'
  end.

End Subtitle.

(** [parseSRT] and [stringifySRT] of [src/utils/srt-shifter.js], and the
    identical copies of the main process.  The two functions of the library
    are parameters: [parseSync] may throw, [stringifySync] is the one for
    [{ format: 'SRT' }]. *)
Module SrtFile.

Section Library.

Variable parseSync : jsstring -> completion (list Subtitle.node).
Variable stringifySync : list Subtitle.node -> jsstring.

Definition parseSRT (content : jsstring) : completion (list cue) :=
  bind (parseSync content)
       (fun nodes =>
          Normal (JSLib.mapi
                    (fun data index =>
                       Cue (index + 1) (Subtitle.start data)
                           (Subtitle.end_ data) (Subtitle.text data))
                    (Subtitle.cueNodes nodes))).

Definition stringifySRT (cues : list cue) : jsstring :=
  let nodes :=
    map (fun cue =>
           Subtitle.CueNode
             (Subtitle.CueData (start cue) (end_ cue) (text cue) None))
        cues in
  stringifySync nodes.

End Library.

End SrtFile.

(** [filename ? filename.replace('.srt', '-shifted.srt')
             : 'shifted-subtitles.srt'], written in both download
    handlers.  A truthy value that is not a string has no [replace]. *)
Definition outputFilename (filename : value) : completion jsstring :=
  if truthy filename then
    match filename with
    | VString s => Normal (JSLib.replace (lit ".srt") (lit "-shifted.srt") s)
    | _ => Throw "filename.replace is not a function"
    end
  else Normal (lit "shifted-subtitles.srt").

(** The [duration] of an upload answer, [{ start, end, startMs, endMs }]. *)
Module Duration.

Record duration := Make {
  start : jsstring;
  end_ : jsstring;
  startMs : Z;
  endMs : Z
}.

End Duration.

(** [src/routes/api.js]: the handlers of [POST /api/upload] and
    [POST /api/download].  The upload handler is the function the route runs
    after [upload.single('file')]: the name filter and the size limit of that
    middleware, and the error handler that answers its refusals, come before
    it and are not part of [upload]. *)
Module ApiFiles.

Section Library.

Variable parseSync : jsstring -> completion (list Subtitle.node).
Variable stringifySync : list Subtitle.node -> jsstring.

(** [req.file]: its name and [req.file.buffer.toString('utf-8')]. *)
Record uploadedFile := UploadedFile {
  originalname : jsstring;
  content : jsstring
}.

Inductive uploadJson :=
| UploadError (error message : string)
| UploadOk (filename : jsstring) (cueCount : Z)
           (duration : Duration.duration)
           (cues : list Wire.cue).

Record uploadResponse := UploadResponse {
  uploadStatus : Z;
  uploadBody : uploadJson
}.

Definition upload (file : option uploadedFile) : uploadResponse :=
  match file with
  | None =>
      UploadResponse 400
        (UploadError "No file uploaded" "Please select an SRT file to upload")
  | Some file =>
      match SrtFile.parseSRT parseSync (content file) with
      | Throw _ =>
          UploadResponse 500
            (UploadError
               "Parse error"
               "Failed to parse the SRT file. Please check the file format.")
      | Normal [] =>
          UploadResponse 400
            (UploadError
               "Invalid SRT file"
               "The file appears to be empty or not in valid SRT format")
      | Normal ((firstCue :: _) as cues) =>
          let lastCue := nth (length cues - 1) cues firstCue in
          UploadResponse 200
            (UploadOk (originalname file) (Z.of_nat (length cues))
               (Duration.Make
                  (SrtShifter.formatTimestamp (start firstCue))
                  (SrtShifter.formatTimestamp (end_ lastCue))
                  (start firstCue) (end_ lastCue))
               (map Api.toWire cues))
      end
  end.

(** The code units [res.setHeader] accepts in a header value: a tab, and
    what is printable below 256.  On any other it throws, and the handler
    answers from its [catch]. *)
Definition headerChar (c : code) : bool :=
  ((c =? 9) || (32 <=? c) && (c <=? 126) || (128 <=? c) && (c <=? 255))%N.

(** [req.body] of the download route.  The [Content-Type] of the file is the
    one [res.send] sends for a text: the type set by the handler, with its
    charset. *)
Record downloadBody := DownloadBody {
  cues : option (list Wire.cue);
  filename : value
}.

Inductive downloadResponse :=
| DownloadError (status : Z) (error message : string)
| DownloadFile (contentType contentDisposition body : jsstring).

Definition download (req : downloadBody) : downloadResponse :=
  match cues req with
  | None | Some [] =>
      DownloadError 400 "Invalid cues" "No subtitle data provided"
  | Some cues =>
      let parsedCues := map Api.fromWire cues in
      let srtContent := SrtFile.stringifySRT stringifySync parsedCues in
      match outputFilename (filename req) with
      | Throw _ =>
          DownloadError 500 "Generation error" "Failed to generate SRT file"
      | Normal outputFilename =>
          let disposition :=
            lit "attachment; filename=" ++ [34%N] ++ outputFilename
                ++ [34%N] in
          if forallb headerChar disposition then
            DownloadFile (lit "application/x-subrip; charset=utf-8")
                         disposition srtContent
          else
            DownloadError 500 "Generation error" "Failed to generate SRT file"
      end
  end.

End Library.

End ApiFiles.

(** The main process: the ['upload-file'] handler. *)
Module MainFiles.

Section Environment.

Variable parseSync : jsstring -> completion (list Subtitle.node).

(** What [dialog.showOpenDialog] answers and what [readFile] finds. *)
Record openDialogResult := OpenDialogResult {
  canceled : bool;
  filePaths : list jsstring
}.

Variable showOpenDialog : openDialogResult.
Variable readFile : jsstring -> completion jsstring.

(** [{ content, filename }] *)
Record fileData := FileData {
  content : jsstring;
  filename : jsstring
}.

Inductive uploadReply :=
| UploadCanceled
| UploadFailed (message : string)
| UploadDone (filename : jsstring) (cueCount : Z)
             (duration : Duration.duration) (cues : list Wire.cue).

(** [filePath.split('/').pop().split('\\').pop()] *)
Definition fileNameOf (filePath : jsstring) : jsstring :=
  JSLib.pop (JSLib.split 92%N (JSLib.pop (JSLib.split 47%N filePath))).

(** The part of the handler that is the same for a dropped and for an
    opened file. *)
Definition parsed (content filename : jsstring) : completion uploadReply :=
  bind (SrtFile.parseSRT parseSync content)
       (fun cues =>
          match cues with
          | [] =>
              Throw "The file appears to be empty or not in valid SRT format"
          | firstCue :: _ =>
              let lastCue := nth (length cues - 1) cues firstCue in
              Normal
                (UploadDone filename (Z.of_nat (length cues))
                   (Duration.Make
                      (Main.formatTimestamp (start firstCue))
                      (Main.formatTimestamp (end_ lastCue))
                      (start firstCue) (end_ lastCue))
                   (map Main.toWire cues))
          end).

Definition uploadFile_try (fileData : option fileData)
  : completion uploadReply :=
  match fileData with
  | Some fileData => parsed (content fileData) (filename fileData)
  | None =>
      let result := showOpenDialog in
      if canceled result || (length (filePaths result) =? 0)%nat
      then Normal UploadCanceled
      else
        let filePath := nth 0 (filePaths result) [] in
        bind (readFile filePath)
             (fun content => parsed content (fileNameOf filePath))
  end.

(** [catch (error) { return { error: true,
                              message: error.message || ... } }] *)
Definition uploadFile (fileData : option fileData) : uploadReply :=
  match uploadFile_try fileData with
  | Normal r => r
  | Throw message =>
      UploadFailed (if String.eqb message "" then "Failed to parse the SRT file"
                    else message)
  end.

End Environment.

End MainFiles.

(** Further vocabulary. *)

(** The cues come in the order of their start times. *)
Definition starts_sorted (cues : list cue) : Prop :=
  StronglySorted (fun a b => start a <= start b) cues.

(** How long a cue is shown. *)
Definition shown_for (c : cue) : Z := end_ c - start c.

(** The forms with hours, [H:MM:SS,mmm], [H:MM:SS.mmm] and [H:MM:SS], and
    the forms without, [M:SS] and whole seconds. *)
Inductive long_form : jsstring -> Prop :=
| long_full hours minutes seconds ms sep :
    digit_text 1 2 hours -> digit_text 2 2 minutes ->
    digit_text 2 2 seconds -> digit_text 3 3 ms ->
    In sep (lit ",.") ->
    long_form
      (hours ++ lit ":" ++ minutes ++ lit ":" ++ seconds ++ [sep] ++ ms)
| long_hms hours minutes seconds :
    digit_text 1 2 hours -> digit_text 2 2 minutes ->
    digit_text 2 2 seconds ->
    long_form (hours ++ lit ":" ++ minutes ++ lit ":" ++ seconds).

Inductive short_form : jsstring -> Prop :=
| short_ms minutes seconds :
    digit_text 1 2 minutes -> digit_text 2 2 seconds ->
    short_form (minutes ++ lit ":" ++ seconds)
| short_seconds value :
    forallb is_digit value = true -> value <> [] ->
    short_form value.

(** The value is not a text of one of the four timestamp forms. *)
Definition unreadable (v : value) : Prop :=
  forall s, v = VString s -> forall ms, ~ recognized (trim s) ms.

(** The answer of the web route, read as an answer of the desktop
    handler. *)
Definition replyOf (r : Api.response) : Main.reply :=
  match Api.body r with
  | Api.ErrorJson _ message => Main.ErrorReply message
  | Api.ShiftJson offsetMs mode cues => Main.ShiftReply offsetMs mode cues
  end.

(** Three cues as the user interface holds them, and requests on them. *)
Definition three_wire_cues : list Wire.cue := map Api.toWire three_cues.

Definition full_web_request : Api.shiftBody :=
  Api.ShiftBody (Some three_wire_cues) (Some 2000) (VString (lit "full"))
                VUndefined VUndefined.

Definition garbled_web_request : Api.shiftBody :=
  Api.ShiftBody (Some three_wire_cues) (Some 2000) (VString (lit "partial"))
                (VString (lit "ten past")) VUndefined.

Definition short_desktop_request : Main.shiftArgs :=
  Main.ShiftArgs three_wire_cues 2000 (VString (lit "partial"))
                 (VString (lit "02:00")) (VString (lit "01:00")).

(** A stand-in for the library, to run the handlers on: every content
    parses to a header and two cues, and the cues are written as their texts
    one after the other. *)
Definition sample_nodes : list Subtitle.node :=
  [Subtitle.HeaderNode (lit "WEBVTT");
   Subtitle.CueNode (Subtitle.CueData 1000 3000 (lit "one") None);
   Subtitle.CueNode (Subtitle.CueData 20000 23000 (lit "two") (Some (lit "X1:40")))].

Definition sample_parseSync (content : jsstring)
  : completion (list Subtitle.node) :=
  Normal sample_nodes.

Definition sample_stringifySync (nodes : list Subtitle.node) : jsstring :=
  concat (map (fun n => match n with
                        | Subtitle.CueNode data => Subtitle.text data
                        | Subtitle.HeaderNode data => data
                        end) nodes).

Definition sample_file : ApiFiles.uploadedFile :=
  ApiFiles.UploadedFile (lit "movie.srt") (lit "1").

(** The node [stringifySRT] makes of a cue, from the data of a parsed
    node shifted by [offsetMs]. *)
Definition shifted_node (offsetMs : Z) (data : Subtitle.cueData)
  : Subtitle.node :=
  Subtitle.CueNode
    (Subtitle.CueData
       (Z.max 0 (Subtitle.start data + offsetMs))
       (Z.max (Z.max 0 (Subtitle.start data + offsetMs))
              (Z.max 0 (Subtitle.end_ data + offsetMs)))
       (Subtitle.text data) None).

(* ================================================================= *)
(** ** The arithmetic of the program's numbers *)

(** The numbers of the program are binary64 floating-point numbers.  On
    the integers, which is where the program uses them, a sum or a product
    of finite numbers is the exact one rounded to the nearest number with a
    53-bit significand, ties to the even significand, and [Infinity] when
    that is [2^1024] or more; [Infinity] is held as [2^1024], which is above
    every finite number as [Infinity] is.  The functions of
    [srt-shifter.js] that add and multiply are given once more below with
    this arithmetic; they are the ones of [SrtShifter] wherever the results
    stay below [2^53]. *)

Module Binary64.

Definition two53 : Z := 9007199254740992.

(** [Infinity]: the first power of two above every finite number. *)
Definition infinity : Z := 2 ^ 1024.

Definition round (z : Z) : Z :=
  let a := Z.abs z in
  if a <? two53 then z
  else
    let ulp := 2 ^ (Z.log2 a - 52) in
    let q := a / ulp in
    let r := a mod ulp in
    let up := if r * 2 <? ulp then false
              else if ulp <? r * 2 then true
              else Z.odd q in
    let nearest := (if up then q + 1 else q) * ulp in
    Z.sgn z * (if infinity <=? nearest then infinity else nearest).

Definition add (a b : Z) : Z := round (a + b).
Definition mul (a b : Z) : Z := round (a * b).

(** [parseInt(s, 10)] on a text of digits: its value, as a number. *)
Definition parseInt (s : jsstring) : Z := round (JS.parseInt s).

Definition shiftTime (cues : list cue) (offsetMs : Z)
           (startTimeMs endTimeMs : option Z) : list cue :=
  let isPartialShift :=
    match startTimeMs, endTimeMs with
    | Some _, Some _ => true
    | _, _ => false
    end in
  map (fun cue =>
         let cueInRange :=
           negb isPartialShift ||
           match startTimeMs, endTimeMs with
           | Some startTimeMs, Some endTimeMs =>
               (start cue >=? startTimeMs) && (start cue <=? endTimeMs)
           | _, _ => false
           end in
         if negb cueInRange then
           Cue (index cue) (start cue) (end_ cue) (text cue)
         else
           let newStart := Z.max 0 (add (start cue) offsetMs) in
           let newEnd := Z.max 0 (add (end_ cue) offsetMs) in
           Cue (index cue) newStart (Z.max newStart newEnd) (text cue))
      cues.

Definition parseTimestamp (timestamp : value) : Z :=
  if negb (truthy timestamp) || negb (typeof_string timestamp) then 0
  else
    match timestamp with
    | VString s =>
        let trimmed := trim s in
        match str_match trimmed SrtShifter.fullRe with
        | Some fullMatch =>
            add (add (add (mul (parseInt (group fullMatch 1)) 3600000)
                          (mul (parseInt (group fullMatch 2)) 60000))
                     (mul (parseInt (group fullMatch 3)) 1000))
                (parseInt (group fullMatch 4))
        | None =>
        match str_match trimmed SrtShifter.hmsRe with
        | Some hmsMatch =>
            add (add (mul (parseInt (group hmsMatch 1)) 3600000)
                     (mul (parseInt (group hmsMatch 2)) 60000))
                (mul (parseInt (group hmsMatch 3)) 1000)
        | None =>
        match str_match trimmed SrtShifter.msRe with
        | Some msMatch =>
            add (mul (parseInt (group msMatch 1)) 60000)
                (mul (parseInt (group msMatch 2)) 1000)
        | None =>
        match str_match trimmed SrtShifter.secondsRe with
        | Some secondsMatch => mul (parseInt (group secondsMatch 1)) 1000
        | None => 0
        end end end end
    | _ => 0
    end.

End Binary64.

(** [POST /api/shift] once more, for any array of cues: an element of
    [cues] is [None] when it is [null] or [undefined], and reading its
    [index] throws; what is thrown inside the [try] is answered by the
    [catch] with status 500.  The window bounds and the times are computed
    with the arithmetic of the program. *)
Module ApiShift.

Record body := Body {
  cues : option (list (option Wire.cue));
  offsetMs : option Z;
  mode : value;
  startTime : value;
  endTime : value
}.

(** [cues.map(cue => ({ index: cue.index, ... }))] *)
Fixpoint parsedCuesOf (cues : list (option Wire.cue)) : completion (list cue) :=
  match cues with
  | [] => Normal []
  | None :: _ => Throw "Cannot read properties of null (reading 'index')"
  | Some c :: cues' =>
      bind (parsedCuesOf cues')
           (fun parsed => Normal (Api.fromWire c :: parsed))
  end.

Definition shift_try (req : body) : completion Api.response :=
  match cues req with
  | None | Some [] =>
      Normal (Api.Response 400
                (Api.ErrorJson "Invalid cues" "No subtitle data provided"))
  | Some cues =>
      match offsetMs req with
      | None =>
          Normal (Api.Response 400
                    (Api.ErrorJson
                       "Invalid offset"
                       "Please enter a valid time offset in milliseconds"))
      | Some offsetMs =>
          bind (parsedCuesOf cues)
               (fun parsedCues =>
                  let ok shiftedCues :=
                    Api.Response 200
                      (Api.ShiftJson offsetMs (Api.modeOrFull (mode req))
                                     (map Api.toWire shiftedCues)) in
                  if strict_eq_lit (mode req) (lit "partial") then
                    let startMs := Binary64.parseTimestamp (startTime req) in
                    let endMs := Binary64.parseTimestamp (endTime req) in
                    if startMs >? endMs then
                      Normal (Api.Response 400
                                (Api.ErrorJson
                                   "Invalid range"
                                   "Start time must be before end time"))
                    else
                      Normal (ok (Binary64.shiftTime parsedCues offsetMs
                                                     (Some startMs)
                                                     (Some endMs)))
                  else
                    Normal (ok (Binary64.shiftTime parsedCues offsetMs
                                                   None None)))
      end
  end.

Definition shift (req : body) : Api.response :=
  match shift_try req with
  | Normal response => response
  | Throw _ =>
      Api.Response 500
        (Api.ErrorJson "Processing error" "Failed to shift subtitles")
  end.

End ApiShift.

(** Vocabulary for the ranges in which the arithmetic is exact. *)

(** [Number.MAX_SAFE_INTEGER], [2^53 - 1]. *)
Definition MAX_SAFE_INTEGER : Z := 9007199254740991.

Definition safe (z : Z) : Prop := - MAX_SAFE_INTEGER <= z <= MAX_SAFE_INTEGER.

(** The offset, the times of the cue and the times plus the offset are safe
    integers. *)
Definition exact_shift (offsetMs : Z) (c : cue) : Prop :=
  safe offsetMs /\ safe (start c) /\ safe (end_ c) /\
  safe (start c + offsetMs) /\ safe (end_ c + offsetMs).

(** The same for a shift by [k1] followed by a shift by [k2], and for the
    shift by [k1 + k2]. *)
Definition exact_shifts (k1 k2 : Z) (c : cue) : Prop :=
  exact_shift k1 c /\ safe k2 /\ safe (k1 + k2) /\
  safe (start c + k1 + k2) /\ safe (end_ c + k1 + k2).


(** Requests for the handlers. *)
Definition null_cue_request : ApiShift.body :=
  ApiShift.Body (Some [None]) (Some 5) VUndefined VUndefined VUndefined.


Definition inverted_request : ApiShift.body :=
  ApiShift.Body (Some (map Some three_wire_cues)) (Some 500)
                (VString (lit "partial"))
                (VString (lit "00:00:10")) (VString (lit "00:00:05")).


Definition one_one : cue := Cue 1 1 1 (lit "Hello").

(* ================================================================= *)
(** ** The shift engine *)

Section ShiftTime.

Import SrtShifter.

Variable offsetMs : Z.

(** What [shiftTime] does to one cue, read off its two branches. *)
Lemma shiftTime_cons c cues startTimeMs endTimeMs :
  shiftTime (c :: cues) offsetMs startTimeMs endTimeMs =
  hd c (shiftTime [c] offsetMs startTimeMs endTimeMs)
  :: shiftTime cues offsetMs startTimeMs endTimeMs.
Proof. reflexivity. Qed.

Lemma shiftTime_one_selected c startTimeMs endTimeMs :
  selected (startTimeMs, endTimeMs) c ->
  shiftTime [c] offsetMs startTimeMs endTimeMs =
  [Cue (index c) (Z.max 0 (start c + offsetMs))
       (Z.max (Z.max 0 (start c + offsetMs)) (Z.max 0 (end_ c + offsetMs)))
       (text c)].
Proof.
  unfold selected, shiftTime.
  destruct startTimeMs as [ws|], endTimeMs as [we|]; simpl;
    try (intros _; reflexivity).
  intros [Hlo Hhi].
  replace (start c >=? ws) with true by (symmetry; apply Z.geb_le; lia).
  replace (start c <=? we) with true by (symmetry; apply Z.leb_le; lia).
  reflexivity.
Qed.

Lemma shiftTime_one_not_selected c startTimeMs endTimeMs :
  ~ selected (startTimeMs, endTimeMs) c ->
  shiftTime [c] offsetMs startTimeMs endTimeMs = [c].
Proof.
  unfold selected, shiftTime.
  destruct startTimeMs as [ws|], endTimeMs as [we|]; simpl;
    try (intros H; destruct H; exact I).
  intros Hout.
  destruct (start c >=? ws) eqn:Hlo; destruct (start c <=? we) eqn:Hhi; simpl;
    try (destruct c; reflexivity).
  exfalso. apply Hout. apply Z.geb_le in Hlo. apply Z.leb_le in Hhi. lia.
Qed.

Lemma selected_dec window c : {selected window c} + {~ selected window c}.
Proof.
  destruct window as [[ws|] [we|]]; simpl; try (left; exact I).
  destruct (Z_le_dec ws (start c)), (Z_le_dec (start c) we);
    try (left; lia); right; lia.
Qed.

(** Position by position: a selected cue gets the clamped shift, any other
    cue is returned as it is; [index] and [text] are kept in both cases. *)
Lemma shiftTime_pointwise cues startTimeMs endTimeMs :
  Forall2
    (fun c c' =>
       index c' = index c /\ text c' = text c /\
       (selected (startTimeMs, endTimeMs) c -> clamped_shift offsetMs c c') /\
       (~ selected (startTimeMs, endTimeMs) c -> c' = c))
    cues (shiftTime cues offsetMs startTimeMs endTimeMs).
Proof.
  induction cues as [|c cues IH].
  - constructor.
  - rewrite shiftTime_cons. constructor; [|exact IH].
    destruct (selected_dec (startTimeMs, endTimeMs) c) as [Hin|Hout].
    + rewrite (shiftTime_one_selected _ _ _ Hin). simpl.
      split; [reflexivity|split; [reflexivity|split]].
      * intros _. split; reflexivity.
      * intros Hout. contradiction.
    + rewrite (shiftTime_one_not_selected _ _ _ Hout). simpl.
      split; [reflexivity|split; [reflexivity|split]].
      * intros Hin. contradiction.
      * reflexivity.
Qed.

Lemma shiftTime_length cues startTimeMs endTimeMs :
  length (shiftTime cues offsetMs startTimeMs endTimeMs) = length cues.
Proof. unfold shiftTime. apply length_map. Qed.


End ShiftTime.

(** C9.  Whatever the offset and the mode, the result of [shiftTime] has the
    length of its argument, and position by position the same [index] and the
    same [text]: the two lists of indexes are equal, and so are the two lists
    of texts.  Only [start] and [end] may differ. *)
Theorem shiftTime_frame :
  forall cues offsetMs startTimeMs endTimeMs,
    length (SrtShifter.shiftTime cues offsetMs startTimeMs endTimeMs)
    = length cues /\
    map index (SrtShifter.shiftTime cues offsetMs startTimeMs endTimeMs)
    = map index cues /\
    map text (SrtShifter.shiftTime cues offsetMs startTimeMs endTimeMs)
    = map text cues.
Proof.
  intros cues offsetMs startTimeMs endTimeMs.
  split; [apply shiftTime_length|].
  pose proof (shiftTime_pointwise offsetMs cues startTimeMs endTimeMs) as H.
  induction H as [|c c' l l' (Hi & Ht & _) _ [IHi IHt]]; simpl.
  - split; reflexivity.
  - rewrite Hi, Ht, IHi, IHt. split; reflexivity.
Qed.





(* ================================================================= *)
(** ** Where the arithmetic of the program is the exact one *)

Section Exact.

Lemma round_safe z : safe z -> Binary64.round z = z.
Proof.
  unfold safe, MAX_SAFE_INTEGER, Binary64.round. intros H.
  replace (Z.abs z <? Binary64.two53) with true; [reflexivity|].
  symmetry. apply Z.ltb_lt. unfold Binary64.two53. lia.
Qed.

(** On sums that are safe integers, [shiftTime] with the arithmetic of the
    program is [shiftTime] with the exact one. *)
Lemma shiftTime64_exact cues offsetMs startTimeMs endTimeMs :
  Forall (fun c => safe (start c + offsetMs) /\ safe (end_ c + offsetMs))
         cues ->
  Binary64.shiftTime cues offsetMs startTimeMs endTimeMs
  = SrtShifter.shiftTime cues offsetMs startTimeMs endTimeMs.
Proof.
  intros H. unfold Binary64.shiftTime, SrtShifter.shiftTime.
  apply map_ext_in. intros c Hc. rewrite Forall_forall in H.
  destruct (H c Hc) as [Hs He]. unfold Binary64.add.
  rewrite (round_safe Hs), (round_safe He). reflexivity.
Qed.

Lemma exact_shift_sums offsetMs cues :
  Forall (exact_shift offsetMs) cues ->
  Forall (fun c => safe (start c + offsetMs) /\ safe (end_ c + offsetMs))
         cues.
Proof.
  apply Forall_impl. intros c (_ & _ & _ & Hs & He). auto.
Qed.

(** A shift in which no [Math.max] changes a value adds the offset. *)
Lemma shiftTime_unclamped cues k :
  Forall (no_clamp k) cues ->
  SrtShifter.shiftTime cues k None None
  = map (fun c => Cue (index c) (start c + k) (end_ c + k) (text c)) cues.
Proof.
  intros H. unfold SrtShifter.shiftTime. apply map_ext_in. intros c Hc.
  rewrite Forall_forall in H. destruct (H c Hc) as (Hs & He & Hse).
  simpl. rewrite Hs, He, Hse. reflexivity.
Qed.

Lemma parsedCuesOf_some cues :
  ApiShift.parsedCuesOf (map Some cues) = Normal (map Api.fromWire cues).
Proof.
  induction cues as [|c cues IH]; simpl; [reflexivity|].
  rewrite IH. reflexivity.
Qed.

Lemma parsedCuesOf_cases l :
  (exists cues, l = map Some cues /\ ~ In None l) \/
  (In None l /\ exists message, ApiShift.parsedCuesOf l = Throw message).
Proof.
  induction l as [|[c|] l [(cues & -> & Hno)|(Hin & message & Hthrow)]].
  - left. exists []. split; [reflexivity|]. intros [].
  - left. exists (c :: cues). split; [reflexivity|].
    intros [H|H]; [discriminate|contradiction].
  - right. split; [right; exact Hin|].
    exists message. simpl. rewrite Hthrow. reflexivity.
  - right. split; [left; reflexivity|]. eexists. reflexivity.
  - right. split; [left; reflexivity|]. eexists. reflexivity.
Qed.

End Exact.

(** C4 (amended).  In full mode, on times and an offset that are safe
    integers and stay so when added (so that the additions of the program
    are exact), the result has the length of the argument and every cue gets
    the clamped shift.  With [offsetMs <> 0] the pair [(start, end)] of a cue
    comes out unchanged exactly when [start = 0], [end = 0] and
    [offsetMs < 0], that is when clamping at zero absorbs the offset; any
    other cue comes out with a different [start] or [end]. *)
Theorem shiftTime_full_totality :
  forall cues offsetMs,
    offsetMs <> 0 ->
    Forall (exact_shift offsetMs) cues ->
    length (Binary64.shiftTime cues offsetMs None None) = length cues /\
    Forall2
      (fun c c' =>
         clamped_shift offsetMs c c' /\
         (start c' = start c /\ end_ c' = end_ c <->
          start c = 0 /\ end_ c = 0 /\ offsetMs < 0))
      cues (Binary64.shiftTime cues offsetMs None None).
Proof.
  intros cues offsetMs Hoff Hexact.
  rewrite (@shiftTime64_exact cues offsetMs None None
             (exact_shift_sums Hexact)).
  split; [apply shiftTime_length|].
  eapply Forall2_impl;
    [|exact (shiftTime_pointwise offsetMs cues None None)].
  simpl. intros c c' (_ & _ & Hin & _).
  specialize (Hin I). split; [exact Hin|].
  destruct Hin as [Hs He]. rewrite He, Hs. lia.
Qed.

Lemma shiftTime_full_totality_witness :
  -8000 <> 0 /\
  Forall (exact_shift (-8000)) [hello; zero_cue] /\
  length (Binary64.shiftTime [hello; zero_cue] (-8000) None None)
  = length [hello; zero_cue] /\
  Forall2
    (fun c c' =>
       clamped_shift (-8000) c c' /\
       (start c' = start c /\ end_ c' = end_ c <->
        start c = 0 /\ end_ c = 0 /\ -8000 < 0))
    [hello; zero_cue]
    (Binary64.shiftTime [hello; zero_cue] (-8000) None None).
Proof.
  assert (Hoff : -8000 <> 0) by lia.
  assert (Hexact : Forall (exact_shift (-8000)) [hello; zero_cue]).
  { repeat constructor; unfold safe, MAX_SAFE_INTEGER; simpl; lia. }
  split; [exact Hoff|split; [exact Hexact|]].
  exact (shiftTime_full_totality Hoff Hexact).
Defined.

(** C4, as stated, fails: a cue at [start = 0, end = 0] shifted by a negative
    offset in full mode comes out with the same [start] and [end].  So does,
    beyond the safe integers, a cue at [2^53] shifted by 1: the sum rounds
    back to [2^53]. *)
Lemma shiftTime_full_leaves_zero_cue :
  -8000 <> 0 /\
  SrtShifter.shiftTime [zero_cue] (-8000) None None = [zero_cue] /\
  Binary64.shiftTime [zero_cue] (-8000) None None = [zero_cue] /\
  Binary64.shiftTime
    [Cue 1 Binary64.two53 Binary64.two53 (lit "Hello")] 1 None None
  = [Cue 1 Binary64.two53 Binary64.two53 (lit "Hello")].
Proof. split; [lia|repeat split; vm_compute; reflexivity]. Qed.

(** C8 (amended).  On times that are safe integers and stay so when [k]
    is added (so that the additions of the program are exact): when no
    [Math.max] intervenes, neither while shifting the cues by [k] nor while
    shifting the result by [-k], the second full-mode shift gives back the
    original cues. *)
Theorem shiftTime_inverse :
  forall cues k,
    Forall (exact_shift k) cues ->
    Forall (no_clamp k) cues ->
    Forall (no_clamp (- k)) (Binary64.shiftTime cues k None None) ->
    Binary64.shiftTime (Binary64.shiftTime cues k None None) (- k) None None
    = cues.
Proof.
  intros cues k Hexact Hfwd.
  rewrite (@shiftTime64_exact cues k None None (exact_shift_sums Hexact)).
  rewrite (shiftTime_unclamped Hfwd). intros Hback.
  rewrite shiftTime64_exact, (shiftTime_unclamped Hback).
  - rewrite map_map. rewrite <- (map_id cues) at 2.
    apply map_ext. intros [i s e t]. simpl. f_equal; lia.
  - apply Forall_forall. intros c' Hc'.
    apply in_map_iff in Hc' as (c & <- & Hc).
    rewrite Forall_forall in Hexact.
    destruct (Hexact c Hc) as (_ & Hs & He & _). simpl.
    replace (start c + k + - k) with (start c) by lia.
    replace (end_ c + k + - k) with (end_ c) by lia. auto.
Qed.

Lemma shiftTime_inverse_witness :
  Forall (exact_shift 2000) three_cues /\
  Forall (no_clamp 2000) three_cues /\
  Forall (no_clamp (- 2000)) (Binary64.shiftTime three_cues 2000 None None) /\
  Binary64.shiftTime (Binary64.shiftTime three_cues 2000 None None)
                     (- 2000) None None
  = three_cues.
Proof.
  assert (Hexact : Forall (exact_shift 2000) three_cues).
  { repeat constructor; unfold safe, MAX_SAFE_INTEGER; simpl; lia. }
  assert (Hfwd : Forall (no_clamp 2000) three_cues)
    by (repeat constructor).
  assert (Hback : Forall (no_clamp (- 2000))
                         (Binary64.shiftTime three_cues 2000 None None))
    by (repeat constructor).
  split; [exact Hexact|split; [exact Hfwd|split; [exact Hback|]]].
  exact (shiftTime_inverse Hexact Hfwd Hback).
Defined.

(** C8, as stated, fails for large offsets: the cue [{start: 1, end: 1}]
    shifted by [2^53] becomes [{start: 2^53, end: 2^53}], because [1 + 2^53]
    is not a number of the program and rounds to [2^53], and shifted back by
    [-2^53] it is [{start: 0, end: 0}]; no [Math.max] changed a value on the
    way. *)
Lemma shiftTime_inverse_rounds :
  Binary64.shiftTime [one_one] Binary64.two53 None None
  = [Cue 1 Binary64.two53 Binary64.two53 (lit "Hello")] /\
  Binary64.shiftTime
    (Binary64.shiftTime [one_one] Binary64.two53 None None)
    (- Binary64.two53) None None
  = [Cue 1 0 0 (lit "Hello")] /\
  Forall (no_clamp Binary64.two53) [one_one] /\
  Forall (no_clamp (- Binary64.two53))
         (Binary64.shiftTime [one_one] Binary64.two53 None None) /\
  Z.max 0 (Binary64.add 1 Binary64.two53) = Binary64.add 1 Binary64.two53 /\
  Z.max 0 (Binary64.add Binary64.two53 (- Binary64.two53))
  = Binary64.add Binary64.two53 (- Binary64.two53) /\
  start one_one = 1 /\ end_ one_one = 1.
Proof.
  split; [vm_compute; reflexivity|].
  split; [vm_compute; reflexivity|].
  split; [repeat constructor|].
  split; [repeat constructor|].
  repeat split.
Qed.

(* ================================================================= *)
(** ** Decimal digits: [toString], [padStart], [parseInt] *)

Section Digits.

Lemma is_digit_range c : is_digit c = true <-> (48 <= c <= 57)%N.
Proof.
  unfold is_digit. rewrite andb_true_iff, !N.leb_le. reflexivity.
Qed.

Lemma is_digit_of_Z r : 0 <= r < 10 -> is_digit (Z.to_N (48 + r)) = true.
Proof. intros Hr. apply is_digit_range. lia. Qed.

Lemma digit_val_of_Z r : 0 <= r < 10 -> digit_val (Z.to_N (48 + r)) = r.
Proof. intros Hr. unfold digit_val. lia. Qed.

Lemma is_digit_not_space c : is_digit c = true -> is_space c = false.
Proof.
  intros Hc. apply is_digit_range in Hc. unfold is_space.
  repeat match goal with
         | |- context [(?a <=? ?b)%N] => destruct (N.leb_spec a b)
         | |- context [(?a =? ?b)%N] => destruct (N.eqb_spec a b)
         end; simpl; try reflexivity; lia.
Qed.

(** The accumulator only collects what comes after the digits produced. *)
Lemma digits_from_acc fuel :
  forall n acc, digits_from fuel n acc = digits_from fuel n [] ++ acc.
Proof.
  induction fuel as [|fuel IH]; intros n acc; simpl.
  - reflexivity.
  - destruct (n <? 10); [reflexivity|].
    rewrite (IH _ (_ :: acc)), (IH _ [_]), <- app_assoc. reflexivity.
Qed.

(** Any fuel above the binary logarithm gives the same digits. *)
Lemma digits_from_fuel fuel1 :
  forall fuel2 n acc,
    0 <= n < 2 ^ Z.of_nat (S fuel1) -> n < 2 ^ Z.of_nat (S fuel2) ->
    digits_from fuel1 n acc = digits_from fuel2 n acc.
Proof.
  induction fuel1 as [|fuel1 IH]; intros fuel2 n acc H1 H2.
  - change (2 ^ Z.of_nat 1) with 2 in H1.
    assert (Hn : (n <? 10) = true) by (apply Z.ltb_lt; lia).
    destruct fuel2; simpl; [|rewrite Hn]; reflexivity.
  - simpl digits_from at 1. destruct (n <? 10) eqn:Hn.
    + destruct fuel2; simpl; [|rewrite Hn]; reflexivity.
    + apply Z.ltb_ge in Hn.
      rewrite Nat2Z.inj_succ, Z.pow_succ_r in H1 by lia.
      destruct fuel2 as [|fuel2].
      * change (2 ^ Z.of_nat 1) with 2 in H2. lia.
      * simpl. replace (n <? 10) with false by (symmetry; apply Z.ltb_ge; lia).
        rewrite Nat2Z.inj_succ, Z.pow_succ_r in H2 by lia.
        apply IH;
          [split; [apply Z.div_pos; lia|]|];
          apply Z.div_lt_upper_bound; lia.
Qed.

Lemma log2_fuel n : 0 <= n -> n < 2 ^ Z.of_nat (S (Z.to_nat (Z.log2 n))).
Proof.
  intros Hn. rewrite Nat2Z.inj_succ, Z2Nat.id by apply Z.log2_nonneg.
  destruct (Z.eq_dec n 0) as [->|Hnz]; [reflexivity|].
  apply Z.log2_spec. lia.
Qed.

(** The equation [digits] was written to satisfy: the fuel is enough. *)
Lemma digits_eq n :
  0 <= n ->
  digits n = if n <? 10 then [Z.to_N (48 + n)]
             else digits (n / 10) ++ [Z.to_N (48 + n mod 10)].
Proof.
  intros Hn. unfold digits. destruct (n <? 10) eqn:Hlt.
  - apply Z.ltb_lt in Hlt.
    destruct (Z.to_nat (Z.log2 n)); simpl;
      rewrite ?(proj2 (Z.ltb_lt n 10)), ?(Z.mod_small n 10) by lia;
      reflexivity.
  - apply Z.ltb_ge in Hlt.
    pose proof (log2_fuel Hn) as Hfuel.
    destruct (Z.to_nat (Z.log2 n)) as [|fuel] eqn:Hlog.
    + change (2 ^ Z.of_nat 1) with 2 in Hfuel. lia.
    + simpl. replace (n <? 10) with false by (symmetry; apply Z.ltb_ge; lia).
      rewrite digits_from_acc. f_equal.
      assert (Hq : 0 <= n / 10) by (apply Z.div_pos; lia).
      apply digits_from_fuel.
      * rewrite Nat2Z.inj_succ, Z.pow_succ_r in Hfuel by lia.
        split; [exact Hq|]. apply Z.div_lt_upper_bound; lia.
      * apply log2_fuel. exact Hq.
Qed.

(** Induction along the digits of a number. *)
Lemma digits_ind (P : Z -> jsstring -> Prop) :
  (forall n, 0 <= n < 10 -> P n [Z.to_N (48 + n)]) ->
  (forall n, 10 <= n -> P (n / 10) (digits (n / 10)) ->
             P n (digits (n / 10) ++ [Z.to_N (48 + n mod 10)])) ->
  forall n, 0 <= n -> P n (digits n).
Proof.
  intros Hsmall Hbig n Hn. generalize Hn.
  apply (Z_lt_induction (fun n => 0 <= n -> P n (digits n))); [|exact Hn].
  clear n Hn. intros n IH Hn. rewrite digits_eq by exact Hn.
  destruct (n <? 10) eqn:Hlt.
  - apply Hsmall. apply Z.ltb_lt in Hlt. lia.
  - apply Z.ltb_ge in Hlt. apply Hbig; [exact Hlt|].
    assert (0 <= n / 10) by (apply Z.div_pos; lia).
    apply IH; [split; [assumption|apply Z.div_lt; lia]|assumption].
Qed.

Lemma digits_all_digits n : 0 <= n -> forallb is_digit (digits n) = true.
Proof.
  revert n. apply (digits_ind (fun _ d => forallb is_digit d = true)).
  - intros n Hn. cbn [forallb]. rewrite is_digit_of_Z by lia. reflexivity.
  - intros n Hn IH. rewrite forallb_app, IH. cbn [forallb].
    rewrite is_digit_of_Z; [reflexivity|]. apply Z.mod_pos_bound. lia.
Qed.

Lemma decimal_snoc d c : decimal (d ++ [c]) = decimal d * 10 + digit_val c.
Proof. unfold decimal. rewrite fold_left_app. reflexivity. Qed.

Lemma decimal_digits n : 0 <= n -> decimal (digits n) = n.
Proof.
  revert n. apply (digits_ind (fun n d => decimal d = n)).
  - intros n Hn. unfold decimal. cbn [fold_left].
    rewrite digit_val_of_Z; lia.
  - intros n Hn IH. rewrite decimal_snoc, IH, digit_val_of_Z.
    + pose proof (Z.div_mod n 10). lia.
    + apply Z.mod_pos_bound. lia.
Qed.

(** A number below [10 ^ k] has at most [k] digits, and at least one. *)
Lemma digits_length_le k :
  forall n, 0 <= n < 10 ^ Z.of_nat (S k) ->
            (1 <= length (digits n) <= S k)%nat.
Proof.
  induction k as [|k IH]; intros n Hn; rewrite digits_eq by lia.
  - change (10 ^ Z.of_nat 1) with 10 in Hn.
    replace (n <? 10) with true by (symmetry; apply Z.ltb_lt; lia).
    simpl. lia.
  - destruct (n <? 10) eqn:Hlt; [simpl; lia|].
    apply Z.ltb_ge in Hlt. rewrite length_app. simpl.
    rewrite Nat2Z.inj_succ, Z.pow_succ_r in Hn by lia.
    assert (0 <= n / 10 < 10 ^ Z.of_nat (S k)).
    { split; [apply Z.div_pos; lia|apply Z.div_lt_upper_bound; lia]. }
    specialize (IH (n / 10)). lia.
Qed.

(** From 100 on there are at least three digits. *)
Lemma digits_length_ge_3 n : 100 <= n -> (3 <= length (digits n))%nat.
Proof.
  intros Hn. rewrite digits_eq by lia.
  replace (n <? 10) with false by (symmetry; apply Z.ltb_ge; lia).
  assert (Hq : 10 <= n / 10) by (apply Z.div_le_lower_bound; lia).
  rewrite (digits_eq (n := n / 10)) by lia.
  replace (n / 10 <? 10) with false by (symmetry; apply Z.ltb_ge; lia).
  rewrite !length_app. simpl.
  assert (Hq' : 0 <= n / 10 / 10) by (apply Z.div_pos; lia).
  rewrite (digits_eq Hq'). destruct (n / 10 / 10 <? 10); [simpl; lia|].
  rewrite length_app. simpl. lia.
Qed.

End Digits.

(* ================================================================= *)
(** ** The matcher against the meaning of the expressions *)

Section Matcher.

Lemma backtrack_sound {A} (try : nat -> option A) lo k x :
  backtrack try lo k = Some x ->
  exists j, (lo <= j <= k)%nat /\ try j = Some x.
Proof.
  induction k as [|k IH]; simpl.
  - destruct (0 <? lo)%nat eqn:Hlo; [discriminate|].
    apply Nat.ltb_ge in Hlo. destruct (try 0%nat) eqn:Htry; [|discriminate].
    intros [= <-]. exists 0%nat. split; [lia|exact Htry].
  - destruct (S k <? lo)%nat eqn:Hlo; [discriminate|].
    apply Nat.ltb_ge in Hlo. destruct (try (S k)) eqn:Htry.
    + intros [= <-]. exists (S k). split; [lia|exact Htry].
    + intros Hrest. destruct (IH Hrest) as (j & Hj & Hx).
      exists j. split; [lia|exact Hx].
Qed.

Lemma backtrack_complete {A} (try : nat -> option A) lo k j x :
  (lo <= j <= k)%nat -> try j = Some x ->
  exists x', backtrack try lo k = Some x'.
Proof.
  induction k as [|k IH]; intros Hj Hx; simpl.
  - replace (0 <? lo)%nat with false by (symmetry; apply Nat.ltb_ge; lia).
    replace j with 0%nat in Hx by lia. rewrite Hx. eauto.
  - replace (S k <? lo)%nat with false by (symmetry; apply Nat.ltb_ge; lia).
    destruct (try (S k)) eqn:Htry; [eauto|].
    apply IH; [|exact Hx].
    destruct (Nat.eq_dec j (S k)) as [->|Hne]; [congruence|lia].
Qed.

Lemma digit_span_firstn s :
  forall j, (j <= digit_span s)%nat ->
            forallb is_digit (firstn j s) = true /\ length (firstn j s) = j.
Proof.
  induction s as [|c s IH]; intros j Hj; simpl in Hj.
  - replace j with 0%nat by lia. split; reflexivity.
  - destruct j as [|j]; [split; reflexivity|].
    destruct (is_digit c) eqn:Hc; [|lia].
    destruct (IH j) as [Hd Hl]; [lia|].
    simpl. rewrite Hc, Hd, Hl. split; reflexivity.
Qed.

Lemma digit_span_app d s :
  forallb is_digit d = true -> (length d <= digit_span (d ++ s))%nat.
Proof.
  induction d as [|c d IH]; simpl; [lia|].
  intros H. apply andb_true_iff in H as [Hc Hd]. rewrite Hc.
  specialize (IH Hd). lia.
Qed.

(** What the search returns is a way for the text to match. *)
Lemma exec_sound r :
  forall s caps, exec r s = Some caps -> matches r s caps.
Proof.
  induction r as [|[lo hi|cs] r IH]; intros s caps; simpl.
  - destruct s; [|discriminate]. intros [= <-]. constructor.
  - intros H. apply backtrack_sound in H as (j & Hj & Htry).
    destruct (exec r (skipn j s)) as [caps'|] eqn:Hrest; [|discriminate].
    injection Htry as <-.
    destruct (@digit_span_firstn s j) as [Hd Hl].
    { destruct hi; lia. }
    rewrite <- (firstn_skipn j s) at 1.
    constructor; auto.
    + lia.
    + intros h ->. lia.
  - destruct s as [|c s]; [discriminate|].
    destruct (mem c cs) eqn:Hc; [|discriminate].
    intros H. constructor; auto.
Qed.

(** Every capture is a text of digits, and is not empty when its group asks
    for at least one digit: [parseInt] is never applied to anything else. *)
Lemma exec_captures_digits r :
  forall s caps,
    exec r s = Some caps ->
    Forall (fun a => match a with Digits lo _ => (1 <= lo)%nat | _ => True end)
           r ->
    Forall (fun d => d <> [] /\ forallb is_digit d = true) caps.
Proof.
  intros s caps Hex. apply exec_sound in Hex.
  induction Hex as [|cs c r s caps _ _ IH|lo hi r d s caps Hd Hlo _ _ IH];
    intros Hr; inversion Hr; subst.
  - constructor.
  - auto.
  - constructor; [|auto]. split; [|exact Hd].
    intros ->. simpl in Hlo. lia.
Qed.

(** A text that matches is found by the search. *)
Lemma exec_complete r s caps :
  matches r s caps -> exists caps', exec r s = Some caps'.
Proof.
  induction 1 as [|cs c r s caps Hc _ [caps' IH]
                  |lo hi r d s caps Hd Hlo Hhi _ [caps' IH]]; simpl.
  - eauto.
  - rewrite Hc. eauto.
  - apply (@backtrack_complete _ _ _ _ (length d) (d :: caps')).
    + pose proof (@digit_span_app d s Hd).
      destruct hi as [h|]; [specialize (Hhi h eq_refl)|]; lia.
    + rewrite firstn_app, Nat.sub_diag, firstn_all, firstn_O, app_nil_r.
      rewrite skipn_app, Nat.sub_diag, skipn_all, skipn_O. simpl.
      rewrite IH. reflexivity.
Qed.

(** Where a run of digits ends is determined by the text. *)
Lemma digit_prefix_unique d :
  forall d' c c' s s',
    forallb is_digit d = true -> forallb is_digit d' = true ->
    is_digit c = false -> is_digit c' = false ->
    d ++ c :: s = d' ++ c' :: s' ->
    d = d' /\ c = c' /\ s = s'.
Proof.
  induction d as [|a d IH]; intros [|a' d'] c c' s s' Hd Hd' Hc Hc';
    simpl; intros [= Ha Hrest].
  - auto.
  - subst. simpl in Hd'. rewrite Hc in Hd'. discriminate.
  - subst. simpl in Hd. rewrite Hc' in Hd. discriminate.
  - subst. simpl in Hd, Hd'.
    apply andb_true_iff in Hd as [_ Hd].
    apply andb_true_iff in Hd' as [_ Hd'].
    destruct (IH _ _ _ _ _ Hd Hd' Hc Hc' Hrest) as (-> & -> & ->). auto.
Qed.

Lemma mem_not_digit cs c :
  forallb (fun c => negb (is_digit c)) cs = true ->
  mem c cs = true -> is_digit c = false.
Proof.
  unfold mem. rewrite forallb_forall, existsb_exists.
  intros Hall (c0 & Hin & Heq). apply N.eqb_eq in Heq. subst c0.
  specialize (Hall c Hin). destruct (is_digit c); [discriminate|reflexivity].
Qed.

(** A delimited expression matches a text in at most one way. *)
Lemma matches_deterministic r :
  delimited r = true ->
  forall s caps1 caps2,
    matches r s caps1 -> matches r s caps2 -> caps1 = caps2.
Proof.
  induction r as [|[lo hi|cs] r IH]; intros Hr s caps1 caps2 H1 H2.
  - inversion H1; inversion H2; reflexivity.
  - inversion H1 as [| |? ? ? d1 s1 c1 Hd1 _ _ Hm1]; subst.
    inversion H2 as [| |? ? ? d2 s2 c2 Hd2 _ _ Hm2]; subst.
    match goal with H : _ ++ _ = _ ++ _ |- _ => rename H into Heq end.
    simpl in Hr. apply andb_true_iff in Hr as [Hnext Hr].
    destruct r as [|[lo' hi'|cs'] r'].
    + inversion Hm1; inversion Hm2; subst.
      rewrite !app_nil_r in Heq. subst. reflexivity.
    + discriminate.
    + pose proof Hr as Hr'. simpl in Hr'.
      apply andb_true_iff in Hr' as [Hcs _].
      inversion Hm1 as [|? a1 ? t1 ? Ha1 Hm1'|]; subst.
      inversion Hm2 as [|? a2 ? t2 ? Ha2 Hm2'|]; subst.
      apply digit_prefix_unique in Heq; eauto using mem_not_digit.
      destruct Heq as (? & ? & ?); subst.
      f_equal. eapply IH; eauto; constructor; eauto.
  - simpl in Hr. apply andb_true_iff in Hr as [_ Hr].
    inversion H1; subst. inversion H2; subst. eapply IH; eauto.
Qed.

(** For a delimited expression the search returns exactly the captures of
    the one way the text matches. *)
Lemma exec_matches r s caps :
  delimited r = true ->
  (exec r s = Some caps <-> matches r s caps).
Proof.
  intros Hr. split; [apply exec_sound|].
  intros Hm. destruct (@exec_complete r s caps Hm) as [caps' Hex].
  rewrite Hex. f_equal.
  eapply matches_deterministic; eauto using exec_sound.
Qed.

End Matcher.

(* ================================================================= *)
(** ** The timestamp codec *)

Section Codec.

Import SrtShifter.

Lemma separators_app s1 s2 :
  separators (s1 ++ s2) = (separators s1 + separators s2)%nat.
Proof. unfold separators. rewrite filter_app, length_app. reflexivity. Qed.

Lemma separators_digits d : forallb is_digit d = true -> separators d = 0%nat.
Proof.
  unfold separators. induction d as [|c d IH]; simpl; [reflexivity|].
  intros H. apply andb_true_iff in H as [-> Hd]. simpl. auto.
Qed.

Lemma separators_cons c s :
  is_digit c = false -> separators (c :: s) = S (separators s).
Proof. unfold separators. simpl. intros ->. reflexivity. Qed.

(** A matching text has as many non-digits as the expression has single
    characters. *)
Lemma matches_separators r s caps :
  delimited r = true -> matches r s caps -> separators s = singles r.
Proof.
  intros Hr Hm. induction Hm as [|cs c r s caps Hc _ IH|lo hi r d s caps Hd _ _ _ IH];
    simpl in Hr; apply andb_true_iff in Hr as [Hhere Hr] || idtac.
  - reflexivity.
  - rewrite separators_cons by eauto using mem_not_digit.
    unfold singles in *. simpl. rewrite IH by exact Hr. reflexivity.
  - rewrite separators_app, separators_digits by exact Hd.
    unfold singles in *. simpl. apply IH. exact Hr.
Qed.

Lemma exec_none_by_separators r s :
  delimited r = true -> separators s <> singles r -> exec r s = None.
Proof.
  intros Hr Hne. destruct (exec r s) as [caps|] eqn:Hex; [|reflexivity].
  apply exec_sound in Hex. apply (matches_separators Hr) in Hex. contradiction.
Qed.

(** On a text of digits [parseInt] is the decimal value. *)
Lemma parseInt_decimal d : forallb is_digit d = true -> parseInt d = decimal d.
Proof.
  unfold parseInt, decimal. generalize 0.
  induction d as [|c d IH]; intros acc; simpl; [reflexivity|].
  intros H. apply andb_true_iff in H as [-> Hd]. apply IH. exact Hd.
Qed.

Lemma decimal_zeros k d : decimal (repeat 48%N k ++ d) = decimal d.
Proof.
  unfold decimal. rewrite fold_left_app. f_equal.
  induction k as [|k IH]; simpl; [reflexivity|exact IH].
Qed.

(** [trim] leaves alone a text that neither starts nor ends with a space. *)
Lemma trim_fixed a s z :
  is_space a = false -> is_space z = false ->
  trim (a :: s ++ [z]) = a :: s ++ [z].
Proof.
  intros Ha Hz.
  assert (Hkeep : forall c l, is_space c = false -> trimStart (c :: l) = c :: l)
    by (intros c l H; simpl; rewrite H; reflexivity).
  unfold trim, trimEnd. rewrite Hkeep by exact Ha.
  replace (rev (a :: s ++ [z])) with (z :: rev (a :: s))
    by (change (a :: s ++ [z]) with ((a :: s) ++ [z]);
        rewrite rev_app_distr; reflexivity).
  rewrite Hkeep by exact Hz.
  change (rev (z :: rev (a :: s))) with (rev (rev (a :: s)) ++ [z]).
  rewrite rev_involutive. reflexivity.
Qed.

End Codec.

Section Recognition.

Import SrtShifter.

Lemma mem_colon c : mem c (lit ":") = true -> c = 58%N.
Proof.
  unfold mem. simpl. rewrite orb_false_r. apply N.eqb_eq.
Qed.

Lemma mem_separator c : mem c (lit ",.") = true <-> In c (lit ",.").
Proof.
  unfold mem. rewrite existsb_exists. split.
  - intros (c0 & Hin & Heq). apply N.eqb_eq in Heq. subst. exact Hin.
  - intros Hin. exists c. split; [exact Hin|apply N.eqb_refl].
Qed.

Ltac open_digit_texts :=
  unfold digit_text in *;
  repeat match goal with H : _ /\ _ |- _ => destruct H end.

Ltac match_atoms :=
  repeat first
    [ apply matches_end
    | apply matches_one; [first [reflexivity | apply mem_separator; assumption]|]
    | apply matches_digits; [assumption | lia | intros ? [= <-]; lia |] ].

Lemma matches_full hours minutes seconds ms sep :
  digit_text 1 2 hours -> digit_text 2 2 minutes ->
  digit_text 2 2 seconds -> digit_text 3 3 ms -> In sep (lit ",.") ->
  matches fullRe
          (hours ++ lit ":" ++ minutes ++ lit ":" ++ seconds ++ [sep] ++ ms)
          [hours; minutes; seconds; ms].
Proof.
  intros. open_digit_texts. rewrite <- (app_nil_r ms) at 1.
  unfold fullRe, colon. change (lit ":") with [58%N]. cbn [app].
  match_atoms.
Qed.

Lemma matches_hms hours minutes seconds :
  digit_text 1 2 hours -> digit_text 2 2 minutes -> digit_text 2 2 seconds ->
  matches hmsRe (hours ++ lit ":" ++ minutes ++ lit ":" ++ seconds)
          [hours; minutes; seconds].
Proof.
  intros. open_digit_texts. rewrite <- (app_nil_r seconds) at 1.
  unfold hmsRe, colon. change (lit ":") with [58%N]. cbn [app].
  match_atoms.
Qed.

Lemma matches_ms minutes seconds :
  digit_text 1 2 minutes -> digit_text 2 2 seconds ->
  matches msRe (minutes ++ lit ":" ++ seconds) [minutes; seconds].
Proof.
  intros. open_digit_texts. rewrite <- (app_nil_r seconds) at 1.
  unfold msRe, colon. change (lit ":") with [58%N]. cbn [app].
  match_atoms.
Qed.

Lemma matches_seconds value :
  forallb is_digit value = true -> value <> [] ->
  matches secondsRe value [value].
Proof.
  intros Hd Hne. rewrite <- (app_nil_r value) at 1. unfold secondsRe.
  apply matches_digits; [exact Hd| |discriminate|apply matches_end].
  destruct value; [contradiction|simpl; lia].
Qed.

(** The four forms differ by their number of separators. *)
Lemma recognized_separators s v :
  recognized s v ->
  (separators s = 3%nat /\ exists caps, matches fullRe s caps) \/
  (separators s = 2%nat /\ exists caps, matches hmsRe s caps) \/
  (separators s = 1%nat /\ exists caps, matches msRe s caps) \/
  (separators s = 0%nat /\ exists caps, matches secondsRe s caps).
Proof.
  intros H. destruct H as [h m x ms sep Hh Hm Hx Hms Hsep
                          |h m x Hh Hm Hx|m x Hm Hx|d Hd Hne].
  - left. pose proof (matches_full Hh Hm Hx Hms Hsep) as M.
    split; [|eauto].
    exact (@matches_separators fullRe _ _ eq_refl M).
  - right; left. pose proof (matches_hms Hh Hm Hx) as M.
    split; [|eauto].
    exact (@matches_separators hmsRe _ _ eq_refl M).
  - right; right; left. pose proof (matches_ms Hm Hx) as M.
    split; [|eauto].
    exact (@matches_separators msRe _ _ eq_refl M).
  - right; right; right. pose proof (matches_seconds Hd Hne) as M.
    split; [|eauto].
    exact (@matches_separators secondsRe _ _ eq_refl M).
Qed.

Ltac invert_matches H :=
  apply exec_sound in H;
  unfold fullRe, hmsRe, msRe, secondsRe, colon in H;
  repeat match goal with
         | M : matches (_ :: _) _ _ |- _ => inversion M; clear M; subst
         | M : matches [] _ _ |- _ => inversion M; clear M; subst
         end;
  repeat match goal with
         | B : forall h, Some ?n = Some h -> _ |- _ => specialize (B n eq_refl)
         end;
  repeat match goal with
         | C : mem ?c (lit ":") = true |- _ => apply mem_colon in C; subst c
         end;
  rewrite ?app_nil_r.

(** Whatever one of the four expressions accepts has one of the four
    forms. *)
Lemma exec_full_recognized s caps :
  exec fullRe s = Some caps -> exists v, recognized s v.
Proof.
  intros H. invert_matches H.
  match goal with C : mem _ (lit ",.") = true |- _ => apply mem_separator in C end.
  eexists.
  match goal with
  | |- recognized (?h ++ _ :: ?m ++ _ :: ?x ++ ?c :: ?ms) _ =>
      apply (@recognized_full h m x ms c)
  end; unfold digit_text; auto.
Qed.

Lemma exec_hms_recognized s caps :
  exec hmsRe s = Some caps -> exists v, recognized s v.
Proof.
  intros H. invert_matches H. eexists.
  match goal with
  | |- recognized (?h ++ _ :: ?m ++ _ :: ?x) _ =>
      apply (@recognized_hms h m x)
  end; unfold digit_text; auto.
Qed.

Lemma exec_ms_recognized s caps :
  exec msRe s = Some caps -> exists v, recognized s v.
Proof.
  intros H. invert_matches H. eexists.
  match goal with
  | |- recognized (?m ++ _ :: ?x) _ => apply (@recognized_ms m x)
  end; unfold digit_text; auto.
Qed.

Lemma exec_seconds_recognized s caps :
  exec secondsRe s = Some caps -> exists v, recognized s v.
Proof.
  intros H. invert_matches H. eexists.
  apply recognized_seconds; [assumption|].
  intros ->. simpl in *. lia.
Qed.

Lemma recognized_nonempty s v : recognized s v -> s <> [].
Proof.
  intros H Hs. apply recognized_separators in H.
  destruct H as [[_ [caps M]]|[[_ [caps M]]|[[_ [caps M]]|[_ [caps M]]]]];
    subst s; inversion M; subst;
    match goal with
    | E : _ ++ _ = [] |- _ => apply app_eq_nil in E as [-> E]
    end; simpl in *; try lia;
    match goal with M' : matches (OneOf _ :: _) [] _ |- _ => inversion M' end.
Qed.

(** On a text that is not empty [parseTimestamp] is the cascade of the four
    matches on the trimmed text. *)
Lemma parseTimestamp_cascade c t :
  parseTimestamp (VString (c :: t)) =
  let s := trim (c :: t) in
  match exec fullRe s with
  | Some caps =>
      parseInt (nth 0 caps []) * 3600000 + parseInt (nth 1 caps []) * 60000 +
      parseInt (nth 2 caps []) * 1000 + parseInt (nth 3 caps [])
  | None =>
  match exec hmsRe s with
  | Some caps =>
      parseInt (nth 0 caps []) * 3600000 + parseInt (nth 1 caps []) * 60000 +
      parseInt (nth 2 caps []) * 1000
  | None =>
  match exec msRe s with
  | Some caps =>
      parseInt (nth 0 caps []) * 60000 + parseInt (nth 1 caps []) * 1000
  | None =>
  match exec secondsRe s with
  | Some caps => parseInt (nth 0 caps []) * 1000
  | None => 0
  end end end end.
Proof.
  unfold parseTimestamp, str_match, group.
  cbn [truthy typeof_string negb orb]. cbv zeta.
  destruct (exec fullRe (trim (c :: t))); [reflexivity|].
  destruct (exec hmsRe (trim (c :: t))); [reflexivity|].
  destruct (exec msRe (trim (c :: t))); [reflexivity|].
  destruct (exec secondsRe (trim (c :: t))); reflexivity.
Qed.

(** [parseTimestamp] computes the value of the form the trimmed text has. *)
Lemma parseTimestamp_recognized t v :
  recognized (trim t) v -> parseTimestamp (VString t) = v.
Proof.
  intros H. pose proof (recognized_nonempty H) as Hne.
  destruct t as [|c t]; [contradiction Hne; reflexivity|].
  rewrite parseTimestamp_cascade. cbv zeta.
  remember (trim (c :: t)) as s eqn:Hs. clear Hs Hne.
  destruct H as [h m x ms sep Hh Hm Hx Hms Hsep
                |h m x Hh Hm Hx|m x Hm Hx|d Hd Hne].
  - rewrite (proj2 (@exec_matches fullRe _ _ eq_refl)
                   (matches_full Hh Hm Hx Hms Hsep)).
    open_digit_texts. cbn [nth]. rewrite !parseInt_decimal by assumption.
    reflexivity.
  - pose proof (matches_hms Hh Hm Hx) as M.
    pose proof (@matches_separators hmsRe _ _ eq_refl M) as Hsep.
    rewrite (@exec_none_by_separators fullRe _ eq_refl)
      by (rewrite Hsep; discriminate).
    rewrite (proj2 (@exec_matches hmsRe _ _ eq_refl) M).
    open_digit_texts. cbn [nth]. rewrite !parseInt_decimal by assumption.
    reflexivity.
  - pose proof (matches_ms Hm Hx) as M.
    pose proof (@matches_separators msRe _ _ eq_refl M) as Hsep.
    rewrite (@exec_none_by_separators fullRe _ eq_refl)
      by (rewrite Hsep; discriminate).
    rewrite (@exec_none_by_separators hmsRe _ eq_refl)
      by (rewrite Hsep; discriminate).
    rewrite (proj2 (@exec_matches msRe _ _ eq_refl) M).
    open_digit_texts. cbn [nth]. rewrite !parseInt_decimal by assumption.
    reflexivity.
  - pose proof (matches_seconds Hd Hne) as M.
    pose proof (@matches_separators secondsRe _ _ eq_refl M) as Hsep.
    rewrite (@exec_none_by_separators fullRe _ eq_refl)
      by (rewrite Hsep; discriminate).
    rewrite (@exec_none_by_separators hmsRe _ eq_refl)
      by (rewrite Hsep; discriminate).
    rewrite (@exec_none_by_separators msRe _ eq_refl)
      by (rewrite Hsep; discriminate).
    rewrite (proj2 (@exec_matches secondsRe _ _ eq_refl) M).
    cbn [nth]. rewrite parseInt_decimal by assumption. reflexivity.
Qed.

(** [parseTimestamp] gives 0 on a text whose trimmed form has none of the
    four forms. *)
Lemma parseTimestamp_unrecognized t :
  (forall v, ~ recognized (trim t) v) -> parseTimestamp (VString t) = 0.
Proof.
  intros Hnone. destruct t as [|c t]; [reflexivity|].
  rewrite parseTimestamp_cascade. cbv zeta.
  destruct (exec fullRe (trim (c :: t))) eqn:E1.
  { destruct (exec_full_recognized _ E1) as [v Hv]. destruct (Hnone v Hv). }
  destruct (exec hmsRe (trim (c :: t))) eqn:E2.
  { destruct (exec_hms_recognized _ E2) as [v Hv]. destruct (Hnone v Hv). }
  destruct (exec msRe (trim (c :: t))) eqn:E3.
  { destruct (exec_ms_recognized _ E3) as [v Hv]. destruct (Hnone v Hv). }
  destruct (exec secondsRe (trim (c :: t))) eqn:E4.
  { destruct (exec_seconds_recognized _ E4) as [v Hv]. destruct (Hnone v Hv). }
  reflexivity.
Qed.

End Recognition.

(* ================================================================= *)
(** ** Formatting, then parsing *)

Section RoundTrip.

Import SrtShifter.

Lemma toString_nonneg n : 0 <= n -> toString n = digits n.
Proof.
  intros Hn. unfold toString.
  replace (n <? 0) with false by (symmetry; apply Z.ltb_ge; lia).
  reflexivity.
Qed.

(** A number below [10 ^ k] padded to [k] characters is [k] digits that
    still denote the number. *)
Lemma padStart_digit_text k n :
  0 <= n < 10 ^ Z.of_nat (S k) ->
  digit_text (S k) (S k) (padStart (S k) (toString n)) /\
  decimal (padStart (S k) (toString n)) = n.
Proof.
  intros Hn. rewrite toString_nonneg by lia. unfold padStart, digit_text.
  pose proof (digits_length_le k Hn) as Hlen.
  rewrite decimal_zeros, decimal_digits by lia.
  rewrite forallb_app, digits_all_digits, andb_true_r by lia.
  rewrite length_app, repeat_length.
  split; [split; [|unfold jsstring, code in *; lia]|reflexivity].
  induction (S k - length (digits n))%nat; simpl; auto.
Qed.

Lemma digit_text_2 d :
  digit_text 2 2 d ->
  exists a b, d = [a; b] /\ is_digit a = true /\ is_digit b = true.
Proof.
  intros [Hd Hlen]. destruct d as [|a [|b [|c d]]]; simpl in Hlen; try lia.
  simpl in Hd. rewrite andb_true_r in Hd. apply andb_true_iff in Hd.
  exists a, b. tauto.
Qed.

Lemma digit_text_3 d :
  digit_text 3 3 d ->
  exists a b c, d = [a; b; c] /\
                is_digit a = true /\ is_digit b = true /\ is_digit c = true.
Proof.
  intros [Hd Hlen].
  destruct d as [|a [|b [|c [|e d]]]]; simpl in Hlen; try lia.
  simpl in Hd. rewrite andb_true_r in Hd.
  apply andb_true_iff in Hd as [Ha Hd]. apply andb_true_iff in Hd.
  exists a, b, c. tauto.
Qed.

(** The four fields of a non-negative time. *)
Lemma fields_range ms :
  0 <= ms ->
  0 <= floor_div ms 3600000 /\
  0 <= floor_div (remainder ms 3600000) 60000 < 100 /\
  0 <= floor_div (remainder ms 60000) 1000 < 100 /\
  0 <= remainder ms 1000 < 1000 /\
  floor_div ms 3600000 * 3600000 +
  floor_div (remainder ms 3600000) 60000 * 60000 +
  floor_div (remainder ms 60000) 1000 * 1000 + remainder ms 1000 = ms.
Proof.
  intros Hms. unfold floor_div, remainder.
  rewrite !Z.rem_mod_nonneg by lia.
  Z.div_mod_to_equations. lia.
Qed.

(** The minutes, seconds and milliseconds fields are always 2, 2 and 3
    digits. *)
Lemma formatTimestamp_fields ms :
  0 <= ms ->
  exists c d e f p q r,
    formatTimestamp ms =
    padStart 2 (toString (floor_div ms 3600000))
    ++ [58; c; d; 58; e; f; 44; p; q; r]%N /\
    is_digit r = true /\
    decimal [c; d] = floor_div (remainder ms 3600000) 60000 /\
    decimal [e; f] = floor_div (remainder ms 60000) 1000 /\
    decimal [p; q; r] = remainder ms 1000 /\
    digit_text 2 2 [c; d] /\ digit_text 2 2 [e; f] /\ digit_text 3 3 [p; q; r].
Proof.
  intros Hms. destruct (fields_range Hms) as (_ & Hm & Hs & Hx & _).
  destruct (@padStart_digit_text 1 (floor_div (remainder ms 3600000) 60000))
    as [Tm Vm]; [change (10 ^ Z.of_nat 2) with 100; lia|].
  destruct (@padStart_digit_text 1 (floor_div (remainder ms 60000) 1000))
    as [Ts Vs]; [change (10 ^ Z.of_nat 2) with 100; lia|].
  destruct (@padStart_digit_text 2 (remainder ms 1000))
    as [Tx Vx]; [change (10 ^ Z.of_nat 3) with 1000; lia|].
  unfold formatTimestamp.
  destruct (digit_text_2 Tm) as (c & d & Em & _).
  destruct (digit_text_2 Ts) as (e & f & Es & _).
  destruct (digit_text_3 Tx) as (p & q & r & Ex & _ & _ & Hr).
  rewrite Em in *. rewrite Es in *. rewrite Ex in *.
  exists c, d, e, f, p, q, r. repeat split; try assumption;
    try (apply Tm); try (apply Ts); try (apply Tx).
Qed.

(** With three digits of hours or more, none of the expressions that start
    with one or two digits and a colon accepts the text. *)
Lemma exec_long_hours r hours rest :
  forallb is_digit hours = true -> (3 <= length hours)%nat ->
  exec (Digits 1 (Some 2%nat) :: colon :: r) (hours ++ 58%N :: rest) = None.
Proof.
  intros Hd Hlen.
  destruct (exec _ _) as [caps|] eqn:Hex; [exfalso|reflexivity].
  apply exec_sound in Hex.
  inversion Hex as [| |? ? ? d s ? Hd' _ Hhi M]; subst.
  inversion M as [|? c ? s' ? Hc _|]; subst.
  apply mem_colon in Hc. subst c.
  match goal with E : _ ++ _ = _ ++ _ |- _ => rename E into Heq end.
  apply digit_prefix_unique in Heq; try assumption; try reflexivity.
  destruct Heq as (-> & _). specialize (Hhi 2%nat eq_refl). lia.
Qed.

Lemma exec_seconds_colon hours rest :
  exec secondsRe (hours ++ 58%N :: rest) = None.
Proof.
  destruct (exec _ _) as [caps|] eqn:Hex; [exfalso|reflexivity].
  apply exec_sound in Hex. unfold secondsRe in Hex.
  inversion Hex as [| |? ? ? d s ? Hd _ _ M]; subst.
  inversion M; subst.
  match goal with E : _ ++ _ = _ ++ _ |- _ => rename E into Heq end.
  rewrite app_nil_r in Heq. subst d.
  rewrite forallb_app in Hd. simpl in Hd.
  apply andb_true_iff in Hd as [_ Hd]. discriminate.
Qed.

Lemma roundtrip_below ms :
  0 <= ms < 360000000 ->
  parseTimestamp (VString (formatTimestamp ms)) = ms.
Proof.
  intros Hms.
  destruct (@formatTimestamp_fields ms) as
    (c & d & e & f & p & q & r & Hfmt & Hr & Vm & Vs & Vx & Tm & Ts & Tx);
    [lia|].
  destruct (@fields_range ms) as (Hh & _ & _ & _ & Hsum); [lia|].
  destruct (@padStart_digit_text 1 (floor_div ms 3600000)) as [Th Vh].
  { change (10 ^ Z.of_nat 2) with 100. split; [exact Hh|].
    apply Z.div_lt_upper_bound; lia. }
  destruct (digit_text_2 Th) as (a & b & Eh & Ha & _).
  rewrite Eh in *. rewrite Hfmt.
  apply parseTimestamp_recognized.
  change ([a; b] ++ [58; c; d; 58; e; f; 44; p; q; r]%N)
    with (a :: [b; 58; c; d; 58; e; f; 44; p; q]%N ++ [r]).
  rewrite trim_fixed by (apply is_digit_not_space; assumption).
  rewrite <- Hsum, <- Vh, <- Vm, <- Vs, <- Vx.
  apply (@recognized_full [a; b] [c; d] [e; f] [p; q; r] 44%N); auto.
  - destruct Th as [Hd _]. split; [exact Hd|simpl; lia].
  - left. reflexivity.
Qed.

Lemma roundtrip_above ms :
  360000000 <= ms ->
  (2 < length (toString (floor_div ms 3600000)))%nat /\
  exec fullRe (trim (formatTimestamp ms)) = None /\
  exec hmsRe (trim (formatTimestamp ms)) = None /\
  exec msRe (trim (formatTimestamp ms)) = None /\
  exec secondsRe (trim (formatTimestamp ms)) = None /\
  parseTimestamp (VString (formatTimestamp ms)) = 0.
Proof.
  intros Hms.
  destruct (@formatTimestamp_fields ms) as
    (c & d & e & f & p & q & r & Hfmt & Hr & _); [lia|].
  assert (Hh : 100 <= floor_div ms 3600000)
    by (apply Z.div_le_lower_bound; lia).
  rewrite toString_nonneg in * by lia.
  pose proof (digits_length_ge_3 Hh) as Hlen.
  pose proof (@digits_all_digits (floor_div ms 3600000)) as Hd.
  specialize (Hd ltac:(lia)).
  assert (Hpad : padStart 2 (digits (floor_div ms 3600000))
                 = digits (floor_div ms 3600000)).
  { unfold padStart.
    replace (2 - length (digits (floor_div ms 3600000)))%nat with 0%nat
      by (unfold jsstring, code in *; lia).
    reflexivity. }
  rewrite Hpad in Hfmt. clear Hpad.
  destruct (digits (floor_div ms 3600000)) as [|a hours] eqn:Eh;
    [simpl in Hlen; lia|].
  assert (Ha : is_digit a = true)
    by (simpl in Hd; apply andb_true_iff in Hd; tauto).
  assert (Htrim : trim (formatTimestamp ms) = formatTimestamp ms).
  { rewrite Hfmt.
    replace ((a :: hours) ++ [58; c; d; 58; e; f; 44; p; q; r]%N)
      with (a :: (hours ++ [58; c; d; 58; e; f; 44; p; q]%N) ++ [r])
      by (simpl; rewrite <- app_assoc; reflexivity).
    apply trim_fixed; apply is_digit_not_space; assumption. }
  assert (E1 : exec fullRe (formatTimestamp ms) = None)
    by (rewrite Hfmt; unfold fullRe; apply exec_long_hours; assumption).
  assert (E2 : exec hmsRe (formatTimestamp ms) = None)
    by (rewrite Hfmt; unfold hmsRe; apply exec_long_hours; assumption).
  assert (E3 : exec msRe (formatTimestamp ms) = None)
    by (rewrite Hfmt; unfold msRe; apply exec_long_hours; assumption).
  assert (E4 : exec secondsRe (formatTimestamp ms) = None)
    by (rewrite Hfmt; apply exec_seconds_colon).
  rewrite Htrim. repeat (split; [assumption|]).
  assert (Hcons : formatTimestamp ms
                  = a :: hours ++ [58; c; d; 58; e; f; 44; p; q; r]%N)
    by (rewrite Hfmt; reflexivity).
  rewrite Hcons, parseTimestamp_cascade. cbv zeta.
  rewrite <- Hcons, Htrim, E1, E2, E3, E4. reflexivity.
Qed.

End RoundTrip.

(* ================================================================= *)
(** ** The codec and the two boundary handlers: properties *)

(** The desktop copy of [parseTimestamp] agrees with the one of
    [srt-shifter.js] on every value whose trimmed text is neither of the
    [M:SS] form nor a bare number of seconds. *)
Lemma parseTimestamp_desktop_agrees v :
  (forall s, v = VString s ->
             exec SrtShifter.msRe (trim s) = None /\
             exec SrtShifter.secondsRe (trim s) = None) ->
  Main.parseTimestamp v = SrtShifter.parseTimestamp v.
Proof.
  intros H. destruct v as [| | | |s|]; try reflexivity.
  destruct (H s eq_refl) as [Hms Hsec].
  unfold Main.parseTimestamp, SrtShifter.parseTimestamp, str_match.
  rewrite Hms, Hsec. reflexivity.
Qed.

(** C3.  The two [parseTimestamp] do not compute the same value on every
    text: on ["01:30"] and on ["90"] the one of [srt-shifter.js] answers
    90000 and the one of the desktop main process answers 0. *)
Theorem parseTimestamp_desktop_differs :
  SrtShifter.parseTimestamp (VString (lit "01:30")) = 90000 /\
  Main.parseTimestamp (VString (lit "01:30")) = 0 /\
  SrtShifter.parseTimestamp (VString (lit "90")) = 90000 /\
  Main.parseTimestamp (VString (lit "90")) = 0.
Proof. repeat split; vm_compute; reflexivity. Qed.

(** C6.  [parseTimestamp] is a total function, no path of which throws.  It
    answers 0 on every value that is not a string, on the empty string, and
    on every string whose trimmed text has none of the four forms, that is,
    on which the four [match] calls return [null]; in particular on
    ["not a time"]. *)
Theorem parseTimestamp_fails_soft :
  (forall v, typeof_string v = false -> SrtShifter.parseTimestamp v = 0) /\
  SrtShifter.parseTimestamp (VString []) = 0 /\
  (forall t, (forall ms, ~ recognized (trim t) ms) ->
             SrtShifter.parseTimestamp (VString t) = 0) /\
  (forall t, str_match (trim t) SrtShifter.fullRe = None ->
             str_match (trim t) SrtShifter.hmsRe = None ->
             str_match (trim t) SrtShifter.msRe = None ->
             str_match (trim t) SrtShifter.secondsRe = None ->
             SrtShifter.parseTimestamp (VString t) = 0) /\
  SrtShifter.parseTimestamp (VString (lit "not a time")) = 0.
Proof.
  split; [|split; [reflexivity|split; [|split; [|reflexivity]]]].
  - intros v Hv. unfold SrtShifter.parseTimestamp.
    rewrite Hv, orb_true_r. reflexivity.
  - exact parseTimestamp_unrecognized.
  - intros t E1 E2 E3 E4. unfold SrtShifter.parseTimestamp.
    rewrite E1, E2, E3, E4. destruct t; reflexivity.
Qed.

Lemma parseTimestamp_fails_soft_witness :
  (forall ms, ~ recognized (trim (lit " 12:3x ")) ms) /\
  SrtShifter.parseTimestamp (VString (lit " 12:3x ")) = 0.
Proof.
  assert (Hnone : forall ms, ~ recognized (trim (lit " 12:3x ")) ms).
  { intros ms H. apply recognized_separators in H.
    destruct H as [[_ [caps M]]|[[_ [caps M]]|[[_ [caps M]]|[_ [caps M]]]]];
      apply exec_complete in M; destruct M as [caps' E];
      vm_compute in E; discriminate. }
  split; [exact Hnone|].
  exact (proj1 (proj2 (proj2 parseTimestamp_fails_soft)) _ Hnone).
Defined.

(** C10.  For a non-negative number of milliseconds below 100 hours, parsing
    the formatted text gives the number back.  From 100 hours on, the hours
    field of the formatted text has more than two digits, none of the four
    expressions matches it, and parsing it gives 0. *)
Theorem format_parse_roundtrip :
  forall ms,
    0 <= ms ->
    (ms < 360000000 ->
     SrtShifter.parseTimestamp (VString (SrtShifter.formatTimestamp ms)) = ms) /\
    (360000000 <= ms ->
     (2 < length (toString (floor_div ms 3600000)))%nat /\
     str_match (trim (SrtShifter.formatTimestamp ms)) SrtShifter.fullRe = None /\
     str_match (trim (SrtShifter.formatTimestamp ms)) SrtShifter.hmsRe = None /\
     str_match (trim (SrtShifter.formatTimestamp ms)) SrtShifter.msRe = None /\
     str_match (trim (SrtShifter.formatTimestamp ms)) SrtShifter.secondsRe
     = None /\
     SrtShifter.parseTimestamp (VString (SrtShifter.formatTimestamp ms)) = 0).
Proof.
  intros ms Hms. split.
  - intros Hlt. apply roundtrip_below. lia.
  - intros Hge.
    destruct (roundtrip_above Hge) as (Hlen & E1 & E2 & E3 & E4 & Hzero).
    unfold str_match. rewrite E1, E2, E3, E4.
    repeat split; assumption || reflexivity.
Qed.

Lemma format_parse_roundtrip_witness :
  0 <= 359999999 /\
  SrtShifter.parseTimestamp (VString (SrtShifter.formatTimestamp 359999999))
  = 359999999 /\
  0 <= 360000000 /\
  SrtShifter.parseTimestamp (VString (SrtShifter.formatTimestamp 360000000))
  = 0.
Proof.
  assert (H1 : 0 <= 359999999) by lia.
  assert (H2 : 0 <= 360000000) by lia.
  split; [exact H1|split; [|split; [exact H2|]]].
  - apply (proj1 (format_parse_roundtrip H1)). lia.
  - apply (proj2 (format_parse_roundtrip H2)). lia.
Defined.

(* ================================================================= *)
(** ** More on the shift engine *)

Section ShiftMore.

Import SrtShifter.

(** In full mode [shiftTime] is a [map]. *)
Lemma shiftTime_full_map cues offsetMs :
  shiftTime cues offsetMs None None =
  map (fun c =>
         Cue (index c) (Z.max 0 (start c + offsetMs))
             (Z.max (Z.max 0 (start c + offsetMs))
                    (Z.max 0 (end_ c + offsetMs)))
             (text c))
      cues.
Proof. reflexivity. Qed.

(** X1.  A full-mode shift by 0 gives the cues back exactly when every cue
    has [0 <= start <= end]; on other cues it is not a no-op. *)
Theorem shiftTime_zero_offset :
  forall cues,
    shiftTime cues 0 None None = cues <-> Forall well_timed cues.
Proof.
  intros cues. rewrite shiftTime_full_map. unfold well_timed.
  induction cues as [|[i s e t] cues IH]; simpl.
  - split; [constructor|reflexivity].
  - split.
    + intros [= Hs He Hrest]. constructor; [simpl; lia|].
      apply IH. exact Hrest.
    + intros H. inversion H as [|? ? [Hs He] Hrest]; subst. simpl in Hs, He.
      f_equal; [f_equal; lia|]. apply IH. exact Hrest.
Qed.

(** X2.  A full-mode shift never changes the order of the start times: cues
    sorted by start stay sorted by start. *)
Theorem shiftTime_full_keeps_start_order :
  forall cues offsetMs,
    starts_sorted cues ->
    starts_sorted (shiftTime cues offsetMs None None).
Proof.
  intros cues offsetMs H. rewrite shiftTime_full_map. unfold starts_sorted in *.
  induction H as [|c cues Hs IH Hc]; simpl; constructor.
  - exact IH.
  - clear IH Hs. induction Hc as [|c' cues Hle _ IH]; simpl; constructor.
    + simpl. lia.
    + exact IH.
Qed.

Lemma shiftTime_full_keeps_start_order_witness :
  starts_sorted three_cues /\
  starts_sorted (shiftTime three_cues (-2500) None None).
Proof.
  assert (H : starts_sorted three_cues).
  { unfold starts_sorted, three_cues.
    repeat (constructor; simpl; try lia). }
  split; [exact H|].
  exact (shiftTime_full_keeps_start_order (-2500) H).
Defined.

(** X3.  On times and an offset that are safe integers and stay so when
    added (so that the additions of the program are exact), a shifted cue
    that had [start <= end] is never shown longer than before, and exactly as
    long as before when [start + offsetMs >= 0]. *)
Theorem shiftTime_full_duration :
  forall cues offsetMs,
    Forall (exact_shift offsetMs) cues ->
    Forall (fun c => start c <= end_ c) cues ->
    Forall2
      (fun c c' =>
         0 <= shown_for c' <= shown_for c /\
         (0 <= start c + offsetMs -> shown_for c' = shown_for c))
      cues (Binary64.shiftTime cues offsetMs None None).
Proof.
  intros cues offsetMs Hexact H.
  rewrite (@shiftTime64_exact cues offsetMs None None
             (exact_shift_sums Hexact)).
  rewrite shiftTime_full_map. unfold shown_for.
  induction H as [|c cues Hc _ IH]; simpl; constructor.
  - simpl. lia.
  - apply IH. inversion Hexact; assumption.
Qed.

Lemma shiftTime_full_duration_witness :
  Forall (exact_shift (-6000)) three_cues /\
  Forall (fun c => start c <= end_ c) three_cues /\
  Forall2
    (fun c c' =>
       0 <= shown_for c' <= shown_for c /\
       (0 <= start c + (-6000) -> shown_for c' = shown_for c))
    three_cues (Binary64.shiftTime three_cues (-6000) None None).
Proof.
  assert (Hexact : Forall (exact_shift (-6000)) three_cues).
  { repeat constructor; unfold safe, MAX_SAFE_INTEGER; simpl; lia. }
  assert (H : Forall (fun c => start c <= end_ c) three_cues).
  { repeat constructor; simpl; lia. }
  split; [exact Hexact|split; [exact H|]].
  exact (shiftTime_full_duration Hexact H).
Defined.

(** X4.  On cues with [0 <= start <= end], for times and offsets that are
    safe integers and stay so when added (so that the additions of the
    program are exact), two full-mode shifts in a row are the shift by the
    sum of the offsets as soon as the first one is not negative or the
    second one is not positive. *)
Theorem shiftTime_full_compose :
  forall cues k1 k2,
    Forall (exact_shifts k1 k2) cues ->
    Forall well_timed cues ->
    0 <= k1 \/ k2 <= 0 ->
    Binary64.shiftTime (Binary64.shiftTime cues k1 None None) k2 None None
    = Binary64.shiftTime cues (Binary64.add k1 k2) None None.
Proof.
  intros cues k1 k2 Hexact H Hk.
  destruct cues as [|c0 cues0]; [reflexivity|].
  assert (Hsum : Binary64.add k1 k2 = k1 + k2).
  { inversion Hexact as [|? ? (_ & _ & Hs & _) _]; subst.
    apply round_safe. exact Hs. }
  rewrite Hsum. set (cues := c0 :: cues0) in *. clearbody cues.
  assert (H1 : Forall (fun c => safe (start c + k1) /\ safe (end_ c + k1))
                      cues).
  { eapply Forall_impl; [|exact Hexact].
    intros c ((_ & _ & _ & Hs & He) & _). auto. }
  assert (H12 : Forall (fun c => safe (start c + (k1 + k2)) /\
                                 safe (end_ c + (k1 + k2))) cues).
  { eapply Forall_impl; [|exact Hexact].
    intros c (_ & _ & _ & Hs & He). rewrite !Z.add_assoc. auto. }
  rewrite (@shiftTime64_exact cues k1 None None H1).
  rewrite (@shiftTime64_exact cues (k1 + k2) None None H12).
  rewrite shiftTime64_exact.
  - rewrite !shiftTime_full_map, map_map. unfold well_timed in H.
    clear - H Hk.
    induction H as [|c cues [Hs He] _ IH]; simpl; [reflexivity|].
    f_equal; [|exact IH]. f_equal; lia.
  - rewrite shiftTime_full_map. apply Forall_forall. intros c' Hc'.
    apply in_map_iff in Hc' as (c & <- & Hc).
    rewrite Forall_forall in Hexact, H.
    destruct (Hexact c Hc) as ((_ & _ & _ & Hs1 & He1) & Hk2 & _ & Hs & He).
    destruct (H c Hc) as [H0 Hse].
    unfold safe, MAX_SAFE_INTEGER in *. simpl. lia.
Qed.

Lemma shiftTime_full_compose_witness :
  Forall (exact_shifts 1500 (-4000)) three_cues /\
  Forall well_timed three_cues /\
  (0 <= 1500 \/ -4000 <= 0) /\
  Binary64.shiftTime (Binary64.shiftTime three_cues 1500 None None)
                     (-4000) None None
  = Binary64.shiftTime three_cues (Binary64.add 1500 (-4000)) None None.
Proof.
  assert (Hexact : Forall (exact_shifts 1500 (-4000)) three_cues).
  { repeat constructor; unfold safe, MAX_SAFE_INTEGER; simpl; lia. }
  assert (H : Forall well_timed three_cues).
  { repeat constructor; simpl; lia. }
  assert (Hk : 0 <= 1500 \/ -4000 <= 0) by (left; lia).
  split; [exact Hexact|split; [exact H|split; [exact Hk|]]].
  exact (shiftTime_full_compose Hexact H Hk).
Defined.

End ShiftMore.

(* ================================================================= *)
(** ** More on the timestamp codec *)

Section CodecMore.

Import SrtShifter.

Lemma app_same_length_tail {A} (h1 : list A) :
  forall h2 t1 t2,
    length t1 = length t2 -> h1 ++ t1 = h2 ++ t2 -> h1 = h2 /\ t1 = t2.
Proof.
  induction h1 as [|a h1 IH]; intros [|b h2] t1 t2 Hlen Heq; simpl in Heq.
  - auto.
  - exfalso. subst t1. simpl in Hlen. rewrite length_app in Hlen. lia.
  - exfalso. subst t2. simpl in Hlen. rewrite length_app in Hlen. lia.
  - injection Heq as -> Heq. destruct (IH _ _ _ Hlen Heq) as [-> ->]. auto.
Qed.

Lemma decimal_padStart k n :
  0 <= n -> decimal (padStart k (toString n)) = n.
Proof.
  intros Hn. unfold padStart.
  rewrite decimal_zeros, toString_nonneg, decimal_digits by lia. reflexivity.
Qed.

(** X5.  [formatTimestamp] never gives the same text for two different
    non-negative times, at any number of hours. *)
Theorem formatTimestamp_injective :
  forall a b,
    0 <= a -> 0 <= b ->
    formatTimestamp a = formatTimestamp b -> a = b.
Proof.
  intros a b Ha Hb Heq.
  destruct (formatTimestamp_fields Ha) as
    (c & d & e & f & p & q & r & Fa & _ & Vm & Vs & Vx & _).
  destruct (formatTimestamp_fields Hb) as
    (c' & d' & e' & f' & p' & q' & r' & Fb & _ & Vm' & Vs' & Vx' & _).
  rewrite Fa, Fb in Heq.
  apply app_same_length_tail in Heq as [Hh Ht]; [|reflexivity].
  injection Ht as -> -> -> -> -> -> ->.
  apply (f_equal decimal) in Hh.
  assert (0 <= floor_div a 3600000) by (apply (fields_range Ha)).
  assert (0 <= floor_div b 3600000) by (apply (fields_range Hb)).
  rewrite !decimal_padStart in Hh by assumption.
  destruct (fields_range Ha) as (_ & _ & _ & _ & Sa).
  destruct (fields_range Hb) as (_ & _ & _ & _ & Sb).
  rewrite <- Sa, <- Sb, <- Vm, <- Vs, <- Vx, Vm', Vs', Vx', Hh. reflexivity.
Qed.

Lemma formatTimestamp_injective_witness :
  0 <= 360000000 /\ 0 <= 360000000 /\
  formatTimestamp 360000000 = formatTimestamp 360000000.
Proof.
  assert (H : 0 <= 360000000) by lia.
  split; [exact H|split; [exact H|]].
  exact (f_equal formatTimestamp
                 (formatTimestamp_injective H H eq_refl)).
Defined.

(** X6.  The text of a non-negative time is at least 12 characters long,
    and exactly 12, the width of [HH:MM:SS,mmm], when and only when the time
    is below 100 hours. *)
Theorem formatTimestamp_width :
  forall ms,
    0 <= ms ->
    (12 <= length (formatTimestamp ms))%nat /\
    (length (formatTimestamp ms) = 12%nat <-> ms < 360000000).
Proof.
  intros ms Hms.
  destruct (formatTimestamp_fields Hms) as
    (c & d & e & f & p & q & r & Fmt & _).
  rewrite Fmt, length_app. cbn [length].
  destruct (fields_range Hms) as (Hh & _).
  destruct (Z_lt_dec ms 360000000) as [Hlt|Hge].
  - destruct (@padStart_digit_text 1 (floor_div ms 3600000)) as [[_ Hl] _].
    { change (10 ^ Z.of_nat 2) with 100. split; [exact Hh|].
      apply Z.div_lt_upper_bound; lia. }
    unfold jsstring, code in *. lia.
  - assert (H100 : 100 <= floor_div ms 3600000)
      by (apply Z.div_le_lower_bound; lia).
    pose proof (digits_length_ge_3 H100) as Hl.
    unfold padStart. rewrite toString_nonneg, length_app, repeat_length by lia.
    unfold jsstring, code in *. lia.
Qed.

Lemma formatTimestamp_width_witness :
  0 <= 359999999 /\
  (12 <= length (formatTimestamp 359999999))%nat /\
  (length (formatTimestamp 359999999) = 12%nat <-> 359999999 < 360000000).
Proof.
  assert (H : 0 <= 359999999) by lia.
  split; [exact H|]. exact (formatTimestamp_width H).
Defined.

Lemma parseInt_from_nonneg s : forall acc, 0 <= acc -> 0 <= parseInt_from acc s.
Proof.
  induction s as [|c s IH]; intros acc Hacc; simpl; [exact Hacc|].
  destruct (is_digit c) eqn:Hc; [|exact Hacc].
  apply IH. apply is_digit_range in Hc. unfold digit_val. lia.
Qed.

Lemma parseInt_nonneg s : 0 <= parseInt s.
Proof. apply parseInt_from_nonneg. lia. Qed.

(** X7.  Neither [parseTimestamp] ever answers a negative number, whatever
    it is given: a window bound is never below 0. *)
Theorem parseTimestamp_nonneg :
  forall v,
    0 <= SrtShifter.parseTimestamp v /\ 0 <= Main.parseTimestamp v.
Proof.
  intros v. unfold SrtShifter.parseTimestamp, Main.parseTimestamp, str_match.
  destruct (negb (truthy v) || negb (typeof_string v)); [lia|].
  destruct v as [| | | |s|]; try lia.
  destruct (exec fullRe (trim s)) as [c1|];
    destruct (exec hmsRe (trim s)) as [c2|];
    destruct (exec msRe (trim s)) as [c3|];
    destruct (exec secondsRe (trim s)) as [c4|];
    cbn [option_map group];
    repeat match goal with
           | |- context [parseInt ?x] =>
               lazymatch goal with
               | _ : 0 <= parseInt x |- _ => fail
               | _ => pose proof (parseInt_nonneg x)
               end
           end; lia.
Qed.

Lemma trimStart_spaces w x :
  forallb is_space w = true -> trimStart (w ++ x) = trimStart x.
Proof.
  induction w as [|c w IH]; simpl; [reflexivity|].
  intros H. apply andb_true_iff in H as [-> Hw]. auto.
Qed.

Lemma trimEnd_spaces x w :
  forallb is_space w = true -> trimEnd (x ++ w) = trimEnd x.
Proof.
  intros Hw. unfold trimEnd. rewrite rev_app_distr, trimStart_spaces; auto.
  apply forallb_forall. intros c Hc. apply in_rev in Hc.
  rewrite forallb_forall in Hw. auto.
Qed.

Lemma trim_spaces w1 t w2 :
  forallb is_space w1 = true -> forallb is_space w2 = true ->
  trim (w1 ++ t ++ w2) = trim t.
Proof.
  intros H1 H2. unfold trim. rewrite trimStart_spaces by exact H1.
  induction t as [|c t IH]; simpl.
  - rewrite <- (app_nil_r w2), trimStart_spaces by exact H2. reflexivity.
  - destruct (is_space c); [exact IH|].
    change (c :: t ++ w2) with ((c :: t) ++ w2).
    apply trimEnd_spaces. exact H2.
Qed.

(** X8.  Both [parseTimestamp] read a text the same with or without
    white space around it. *)
Theorem parseTimestamp_ignores_outer_space :
  forall w1 t w2,
    forallb is_space w1 = true -> forallb is_space w2 = true ->
    SrtShifter.parseTimestamp (VString (w1 ++ t ++ w2))
    = SrtShifter.parseTimestamp (VString t) /\
    Main.parseTimestamp (VString (w1 ++ t ++ w2))
    = Main.parseTimestamp (VString t).
Proof.
  intros w1 t w2 H1 H2. pose proof (@trim_spaces w1 t w2 H1 H2) as Htrim.
  remember (w1 ++ t ++ w2) as u eqn:Hu. clear Hu H1 H2.
  unfold SrtShifter.parseTimestamp, Main.parseTimestamp.
  destruct u as [|a u], t as [|b t];
    cbn [truthy typeof_string negb orb]; cbv zeta;
    first [rewrite Htrim | rewrite <- Htrim | idtac]; split; reflexivity.
Qed.

Lemma parseTimestamp_ignores_outer_space_witness :
  forallb is_space (lit "  ") = true /\
  forallb is_space [9%N; 160%N; 10%N] = true /\
  SrtShifter.parseTimestamp
    (VString (lit "  " ++ lit "1:30" ++ [9%N; 160%N; 10%N]))
  = SrtShifter.parseTimestamp (VString (lit "1:30")).
Proof.
  split; [reflexivity|split; [reflexivity|]].
  exact (proj1 (@parseTimestamp_ignores_outer_space
                  (lit "  ") (lit "1:30") [9%N; 160%N; 10%N]
                  eq_refl eq_refl)).
Defined.

Lemma long_form_separators s : long_form s -> (2 <= separators s)%nat.
Proof.
  intros [h m x ms sep Hh Hm Hx Hms Hsep|h m x Hh Hm Hx].
  - rewrite (@matches_separators fullRe _ _ eq_refl
               (matches_full Hh Hm Hx Hms Hsep)).
    unfold singles. simpl. lia.
  - rewrite (@matches_separators hmsRe _ _ eq_refl (matches_hms Hh Hm Hx)).
    unfold singles. simpl. lia.
Qed.

Lemma short_form_separators s : short_form s -> (separators s <= 1)%nat.
Proof.
  intros [m x Hm Hx|d Hd Hne].
  - rewrite (@matches_separators msRe _ _ eq_refl (matches_ms Hm Hx)).
    unfold singles. simpl. lia.
  - rewrite (@matches_separators secondsRe _ _ eq_refl
               (matches_seconds Hd Hne)).
    unfold singles. simpl. lia.
Qed.

Lemma short_form_recognized s :
  short_form s -> exists ms, recognized s ms.
Proof.
  intros [m x Hm Hx|d Hd Hne]; eexists.
  - apply recognized_ms; eassumption.
  - apply recognized_seconds; assumption.
Qed.

Lemma exec_long_form s :
  (exists caps, exec fullRe s = Some caps) \/
  (exists caps, exec hmsRe s = Some caps) ->
  long_form s.
Proof.
  intros [[caps H]|[caps H]];
    apply exec_sound in H; unfold fullRe, hmsRe, colon in H;
    repeat match goal with
           | M : matches (_ :: _) _ _ |- _ => inversion M; clear M; subst
           | M : matches [] _ _ |- _ => inversion M; clear M; subst
           end;
    repeat match goal with
           | B : forall h, Some ?n = Some h -> _ |- _ =>
               specialize (B n eq_refl)
           end;
    repeat match goal with
           | C : mem ?c (lit ":") = true |- _ => apply mem_colon in C; subst c
           end;
    rewrite ?app_nil_r.
  - match goal with
    | C : mem _ (lit ",.") = true |- _ => apply mem_separator in C
    end.
    match goal with
    | |- long_form (?h ++ _ :: ?m ++ _ :: ?x ++ ?c :: ?ms) =>
        apply (@long_full h m x ms c)
    end; unfold digit_text; auto.
  - match goal with
    | |- long_form (?h ++ _ :: ?m ++ _ :: ?x) => apply (@long_hms h m x)
    end; unfold digit_text; auto.
Qed.

Lemma desktop_not_long_zero t :
  ~ long_form (trim t) -> Main.parseTimestamp (VString t) = 0.
Proof.
  intros Hn. unfold Main.parseTimestamp, str_match.
  destruct (exec fullRe (trim t)) as [c1|] eqn:E1.
  { destruct Hn. apply exec_long_form. eauto. }
  destruct (exec hmsRe (trim t)) as [c2|] eqn:E2.
  { destruct Hn. apply exec_long_form. eauto. }
  destruct t; reflexivity.
Qed.

Lemma desktop_short_zero t :
  short_form (trim t) -> Main.parseTimestamp (VString t) = 0.
Proof.
  intros Hs. apply desktop_not_long_zero. intros Hl.
  apply long_form_separators in Hl. apply short_form_separators in Hs. lia.
Qed.

(** X9.  The [parseTimestamp] of the main process answers what the one of
    [srt-shifter.js] answers on a text that, once trimmed, has a form with
    hours, and 0 on every other text; in particular it answers 0 on every
    text of the [M:SS] form and on every text of digits. *)
Theorem desktop_parseTimestamp_forms :
  forall t,
    (long_form (trim t) ->
     Main.parseTimestamp (VString t) = SrtShifter.parseTimestamp (VString t)) /\
    (~ long_form (trim t) -> Main.parseTimestamp (VString t) = 0) /\
    (short_form (trim t) -> Main.parseTimestamp (VString t) = 0).
Proof.
  intros t. split; [|split; [apply desktop_not_long_zero|]].
  - intros Hl. apply long_form_separators in Hl.
    apply parseTimestamp_desktop_agrees. intros s [= <-].
    split; apply exec_none_by_separators; try reflexivity;
      unfold singles; simpl; lia.
  - apply desktop_short_zero.
Qed.

Lemma desktop_parseTimestamp_forms_witness :
  short_form (trim (lit " 1:30 ")) /\
  Main.parseTimestamp (VString (lit " 1:30 ")) = 0.
Proof.
  assert (H : short_form (trim (lit " 1:30 "))).
  { apply (@short_ms (lit "1") (lit "30")); split; try reflexivity; simpl; lia. }
  split; [exact H|].
  exact (proj2 (proj2 (desktop_parseTimestamp_forms (lit " 1:30 "))) H).
Defined.

End CodecMore.

(* ================================================================= *)
(** ** More on the two shift handlers *)

Section HandlersMore.

Lemma shiftTime_index_text cues offsetMs startTimeMs endTimeMs :
  map index (SrtShifter.shiftTime cues offsetMs startTimeMs endTimeMs)
  = map index cues /\
  map text (SrtShifter.shiftTime cues offsetMs startTimeMs endTimeMs)
  = map text cues.
Proof.
  pose proof (shiftTime_pointwise offsetMs cues startTimeMs endTimeMs) as H.
  induction H as [|c c' l l' (Hi & Ht & _) _ [IHi IHt]]; simpl.
  - split; reflexivity.
  - rewrite Hi, Ht, IHi, IHt. split; reflexivity.
Qed.

Lemma toWire_shifted cues shifted :
  length shifted = length cues ->
  map index shifted = map index (map Api.fromWire cues) ->
  map text shifted = map text (map Api.fromWire cues) ->
  length (map Api.toWire shifted) = length cues /\
  map Wire.index (map Api.toWire shifted) = map Wire.index cues /\
  map Wire.text (map Api.toWire shifted) = map Wire.text cues /\
  Forall (fun w =>
            Wire.start w = SrtShifter.formatTimestamp (Wire.startMs w) /\
            Wire.end_ w = SrtShifter.formatTimestamp (Wire.endMs w))
         (map Api.toWire shifted).
Proof.
  intros Hlen Hi Ht. rewrite length_map, !map_map in *. simpl in *.
  repeat split; auto.
  apply Forall_forall. intros w Hw. apply in_map_iff in Hw as (c & <- & _).
  split; reflexivity.
Qed.

(** X11.  A successful answer of [POST /api/shift] echoes the offset, has
    one cue for each cue of the request, in the same order with the same
    [index] and [text], and in each of them [start] and [end] are the
    formatted [startMs] and [endMs]; outside partial mode all of them have
    [0 <= startMs <= endMs]. *)
Theorem api_shift_answer :
  forall req offsetMs mode answer,
    Api.shift req = Api.Response 200 (Api.ShiftJson offsetMs mode answer) ->
    exists cues,
      Api.cues req = Some cues /\
      Api.offsetMs req = Some offsetMs /\
      length answer = length cues /\
      map Wire.index answer = map Wire.index cues /\
      map Wire.text answer = map Wire.text cues /\
      Forall (fun w =>
                Wire.start w = SrtShifter.formatTimestamp (Wire.startMs w) /\
                Wire.end_ w = SrtShifter.formatTimestamp (Wire.endMs w))
             answer /\
      (strict_eq_lit (Api.mode req) (lit "partial") = false ->
       Forall (fun w => 0 <= Wire.startMs w <= Wire.endMs w) answer).
Proof.
  intros [cues off mode0 startTime endTime] offsetMs mode answer.
  unfold Api.shift. simpl.
  destruct cues as [[|c cues]|]; try discriminate.
  destruct off as [k|]; try discriminate.
  set (parsed := map Api.fromWire (c :: cues)).
  assert (Hshape : forall ws we,
             Api.Response 200
               (Api.ShiftJson k (Api.modeOrFull mode0)
                  (map Api.toWire (SrtShifter.shiftTime parsed k ws we)))
             = Api.Response 200 (Api.ShiftJson offsetMs mode answer) ->
             k = offsetMs /\
             answer = map Api.toWire (SrtShifter.shiftTime parsed k ws we)).
  { intros ws we [= -> _ <-]. auto. }
  assert (Hgen : forall ws we,
             answer = map Api.toWire (SrtShifter.shiftTime parsed k ws we) ->
             length answer = length (c :: cues) /\
             map Wire.index answer = map Wire.index (c :: cues) /\
             map Wire.text answer = map Wire.text (c :: cues) /\
             Forall (fun w =>
                       Wire.start w
                       = SrtShifter.formatTimestamp (Wire.startMs w) /\
                       Wire.end_ w
                       = SrtShifter.formatTimestamp (Wire.endMs w))
                    answer).
  { intros ws we ->.
    destruct (shiftTime_index_text parsed k ws we) as [Hi Ht].
    apply toWire_shifted; auto.
    rewrite shiftTime_length. apply length_map. }
  destruct (strict_eq_lit mode0 (lit "partial")).
  - destruct (SrtShifter.parseTimestamp startTime
              >? SrtShifter.parseTimestamp endTime); [discriminate|].
    intros H. apply Hshape in H as [-> H].
    exists (c :: cues). destruct (Hgen _ _ H) as (? & ? & ? & ?).
    repeat split; auto. discriminate.
  - intros H. apply Hshape in H as [-> H].
    exists (c :: cues). destruct (Hgen _ _ H) as (? & ? & ? & ?).
    repeat split; auto. intros _. subst answer.
    apply Forall_forall. intros w Hw.
    apply in_map_iff in Hw as (c' & <- & Hc'). simpl.
    rewrite shiftTime_full_map in Hc'.
    apply in_map_iff in Hc' as (c0 & <- & _). simpl. lia.
Qed.

Lemma api_shift_answer_witness :
  Api.shift full_web_request
  = Api.Response 200
      (Api.ShiftJson 2000 (VString (lit "full"))
         (map Api.toWire (SrtShifter.shiftTime three_cues 2000 None None))) /\
  exists cues,
    Api.cues full_web_request = Some cues /\
    length (map Api.toWire (SrtShifter.shiftTime three_cues 2000 None None))
    = length cues.
Proof.
  split; [reflexivity|].
  destruct (@api_shift_answer full_web_request 2000 (VString (lit "full"))
              (map Api.toWire (SrtShifter.shiftTime three_cues 2000 None None))
              eq_refl)
    as (cues & Hc & _ & Hl & _).
  exists cues. split; [exact Hc|exact Hl].
Defined.

Lemma unreadable_parses_to_0 v :
  unreadable v -> SrtShifter.parseTimestamp v = 0.
Proof.
  intros H. destruct v as [| | | |s|];
    try (unfold SrtShifter.parseTimestamp; simpl;
         rewrite ?orb_true_r; reflexivity).
  apply parseTimestamp_unrecognized. exact (H s eq_refl).
Qed.

Lemma shiftTime_zero_window_keeps l offsetMs :
  Forall2
    (fun w w' =>
       Wire.startMs w <> 0 ->
       Wire.startMs w' = Wire.startMs w /\ Wire.endMs w' = Wire.endMs w)
    l
    (map Api.toWire
         (SrtShifter.shiftTime (map Api.fromWire l) offsetMs
                               (Some 0) (Some 0))).
Proof.
  induction l as [|w l IH]; cbn [map].
  - constructor.
  - rewrite (shiftTime_cons offsetMs). cbn [map]. constructor; [|exact IH].
    intros Hne. rewrite shiftTime_one_not_selected by (simpl; lia).
    split; reflexivity.
Qed.

(** X12.  A partial-mode request to [POST /api/shift] whose two window
    bounds are both unreadable (missing, not a text, or a text of none of
    the four forms) is not refused: it is answered as the window from 0 to 0,
    so that every cue that does not start at 0 comes back with its times
    unchanged. *)
Theorem api_shift_unreadable_window :
  forall req c cues offsetMs,
    Api.cues req = Some (c :: cues) ->
    Api.offsetMs req = Some offsetMs ->
    strict_eq_lit (Api.mode req) (lit "partial") = true ->
    unreadable (Api.startTime req) -> unreadable (Api.endTime req) ->
    Api.shift req
    = Api.Response 200
        (Api.ShiftJson offsetMs (Api.mode req)
           (map Api.toWire
                (SrtShifter.shiftTime (map Api.fromWire (c :: cues)) offsetMs
                                      (Some 0) (Some 0)))) /\
    Forall2
      (fun w w' =>
         Wire.startMs w <> 0 ->
         Wire.startMs w' = Wire.startMs w /\ Wire.endMs w' = Wire.endMs w)
      (c :: cues)
      (map Api.toWire
           (SrtShifter.shiftTime (map Api.fromWire (c :: cues)) offsetMs
                                 (Some 0) (Some 0))).
Proof.
  intros [cues0 off mode startTime endTime] c cues offsetMs.
  cbn [Api.cues Api.offsetMs Api.mode Api.startTime Api.endTime].
  intros -> -> Hmode Hs He. split; [|apply shiftTime_zero_window_keeps].
  unfold Api.shift.
  cbn [Api.cues Api.offsetMs Api.mode Api.startTime Api.endTime]. cbv zeta.
  rewrite Hmode, (unreadable_parses_to_0 Hs), (unreadable_parses_to_0 He).
  simpl (0 >? 0). cbv iota. unfold Api.modeOrFull.
  destruct mode as [| | | |m|]; try discriminate.
  destruct m; [discriminate|reflexivity].
Qed.

Lemma api_shift_unreadable_window_witness :
  unreadable (Api.startTime garbled_web_request) /\
  unreadable (Api.endTime garbled_web_request) /\
  Api.shift garbled_web_request
  = Api.Response 200
      (Api.ShiftJson 2000 (VString (lit "partial")) three_wire_cues).
Proof.
  assert (Hs : unreadable (Api.startTime garbled_web_request)).
  { intros s [= <-] ms H. apply recognized_separators in H.
    destruct H as [[_ [caps M]]|[[_ [caps M]]|[[_ [caps M]]|[_ [caps M]]]]];
      apply exec_complete in M; destruct M as [caps' E];
      vm_compute in E; discriminate. }
  assert (He : unreadable (Api.endTime garbled_web_request)).
  { intros s H. discriminate H. }
  split; [exact Hs|split; [exact He|]].
  exact (proj1 (@api_shift_unreadable_window garbled_web_request
                  _ _ 2000 eq_refl eq_refl eq_refl Hs He)).
Defined.

(** X13.  On a request that the web route does not refuse for its cues, and
    whose window bounds, in partial mode, both copies of [parseTimestamp]
    read alike, the desktop handler gives the answer of the web route.  On
    an empty list of cues outside partial mode it answers with an empty list
    where the web route refuses. *)
Theorem desktop_shift_agrees :
  (forall c cues offsetMs mode startTime endTime,
      (strict_eq_lit mode (lit "partial") = true ->
       Main.parseTimestamp startTime = SrtShifter.parseTimestamp startTime /\
       Main.parseTimestamp endTime = SrtShifter.parseTimestamp endTime) ->
      Main.shiftSubtitles
        (Main.ShiftArgs (c :: cues) offsetMs mode startTime endTime)
      = replyOf (Api.shift (Api.ShiftBody (Some (c :: cues)) (Some offsetMs)
                                          mode startTime endTime))) /\
  (forall offsetMs mode startTime endTime,
      strict_eq_lit mode (lit "partial") = false ->
      Main.shiftSubtitles (Main.ShiftArgs [] offsetMs mode startTime endTime)
      = Main.ShiftReply offsetMs (Api.modeOrFull mode) [] /\
      Api.status (Api.shift (Api.ShiftBody (Some []) (Some offsetMs)
                                           mode startTime endTime)) = 400).
Proof.
  split.
  - intros c cues offsetMs mode startTime endTime Hsame.
    unfold Main.shiftSubtitles, Main.shiftSubtitles_try, Api.shift, replyOf.
    simpl.
    destruct (strict_eq_lit mode (lit "partial")); [|reflexivity].
    destruct (Hsame eq_refl) as [-> ->].
    destruct (SrtShifter.parseTimestamp startTime
              >? SrtShifter.parseTimestamp endTime); reflexivity.
  - intros offsetMs mode startTime endTime Hmode.
    unfold Main.shiftSubtitles, Main.shiftSubtitles_try, Api.shift. simpl.
    rewrite Hmode. split; reflexivity.
Qed.

Lemma desktop_shift_agrees_witness :
  Main.shiftSubtitles
    (Main.ShiftArgs three_wire_cues 2000 (VString (lit "partial"))
                    (VString (lit "00:00:10")) (VString (lit "0:00:30,000")))
  = replyOf (Api.shift (Api.ShiftBody (Some three_wire_cues) (Some 2000)
                          (VString (lit "partial"))
                          (VString (lit "00:00:10"))
                          (VString (lit "0:00:30,000")))).
Proof.
  apply (proj1 desktop_shift_agrees
               (Api.toWire (Cue 1 1000 3000 (lit "one")))
               (map Api.toWire
                    [Cue 2 20000 23000 (lit "two");
                     Cue 3 50000 52000 (lit "three")])).
  intros _. split; reflexivity.
Defined.

(** X14.  On the desktop a partial-mode window whose two bounds are typed
    as [M:SS] or as whole seconds is the window from 0 to 0, whatever the
    bounds say and in whatever order they come; the request is never refused
    as inverted. *)
Theorem desktop_shift_short_window :
  forall a s e,
    strict_eq_lit (Main.mode a) (lit "partial") = true ->
    Main.startTime a = VString s -> short_form (trim s) ->
    Main.endTime a = VString e -> short_form (trim e) ->
    Main.shiftSubtitles a
    = Main.ShiftReply (Main.offsetMs a) (Main.mode a)
        (map Main.toWire
             (Main.shiftTime (map Api.fromWire (Main.cues a)) (Main.offsetMs a)
                             (Some 0) (Some 0))).
Proof.
  intros [cues offsetMs mode startTime endTime] s e. simpl.
  intros Hmode -> Hs -> He.
  unfold Main.shiftSubtitles, Main.shiftSubtitles_try. simpl.
  rewrite Hmode.
  rewrite (desktop_short_zero _ Hs), (desktop_short_zero _ He).
  simpl. unfold Api.modeOrFull.
  destruct mode as [| | | |m|]; try discriminate.
  destruct m; [discriminate|reflexivity].
Qed.

Lemma desktop_shift_short_window_witness :
  short_form (trim (lit "02:00")) /\ short_form (trim (lit "01:00")) /\
  SrtShifter.parseTimestamp (VString (lit "02:00"))
  > SrtShifter.parseTimestamp (VString (lit "01:00")) /\
  Main.shiftSubtitles short_desktop_request
  = Main.ShiftReply 2000 (VString (lit "partial")) three_wire_cues.
Proof.
  assert (Hs : short_form (trim (lit "02:00"))).
  { apply (@short_ms (lit "02") (lit "00")); split; try reflexivity; simpl; lia. }
  assert (He : short_form (trim (lit "01:00"))).
  { apply (@short_ms (lit "01") (lit "00")); split; try reflexivity; simpl; lia. }
  split; [exact Hs|split; [exact He|split; [reflexivity|]]].
  exact (@desktop_shift_short_window short_desktop_request _ _
           eq_refl eq_refl Hs eq_refl He).
Defined.

End HandlersMore.

(* ================================================================= *)
(** ** File names *)

Section FileNames.

Import JSLib.

Lemma startsWith_iff search s :
  startsWith search s = true <-> exists rest, s = search ++ rest.
Proof.
  revert s. induction search as [|p search IH]; intros s; simpl.
  - split; [eauto|reflexivity].
  - destruct s as [|c s].
    + split; [discriminate|intros [rest [=]]].
    + rewrite andb_true_iff, N.eqb_eq, IH. split.
      * intros [-> [rest ->]]. eauto.
      * intros [rest [= -> ->]]. eauto.
Qed.

Lemma skipn_search (search rest : jsstring) :
  skipn (length search) (search ++ rest) = rest.
Proof.
  rewrite skipn_app, Nat.sub_diag, skipn_all. reflexivity.
Qed.

(** [replace] rewrites the first occurrence of the searched text. *)
Lemma replace_first search replacement before :
  forall after,
    (forall before' after',
        before ++ search ++ after = before' ++ search ++ after' ->
        (length before <= length before')%nat) ->
    replace search replacement (before ++ search ++ after)
    = before ++ replacement ++ after.
Proof.
  induction before as [|c before IH]; intros after Hfirst.
  - simpl app. destruct search as [|p search].
    + destruct after; reflexivity.
    + assert (Hs : startsWith (p :: search) ((p :: search) ++ after) = true)
        by (apply startsWith_iff; eauto).
      cbn [app] in Hs |- *. unfold replace; fold replace. rewrite Hs.
      change (p :: search ++ after) with ((p :: search) ++ after).
      rewrite skipn_search. reflexivity.
  - cbn [app]. unfold replace; fold replace.
    destruct (startsWith search (c :: before ++ search ++ after)) eqn:Hs.
    + apply startsWith_iff in Hs as [rest Hrest].
      specialize (Hfirst [] rest Hrest). simpl in Hfirst. lia.
    + f_equal. apply IH. intros before' after' Heq.
      specialize (Hfirst (c :: before') after'). simpl in Hfirst.
      rewrite Heq in Hfirst. specialize (Hfirst eq_refl). lia.
Qed.

(** [replace] leaves alone a text in which the searched text does not
    occur. *)
Lemma replace_absent search replacement s :
  (forall before after, s <> before ++ search ++ after) ->
  replace search replacement s = s.
Proof.
  induction s as [|c s IH]; intros Habs.
  - simpl. destruct (startsWith search []) eqn:Hs; [|reflexivity].
    apply startsWith_iff in Hs as [rest Hrest].
    destruct (Habs [] rest). exact Hrest.
  - unfold replace; fold replace.
    destruct (startsWith search (c :: s)) eqn:Hs.
    + apply startsWith_iff in Hs as [rest Hrest].
      destruct (Habs [] rest). exact Hrest.
    + f_equal. apply IH. intros before after ->.
      apply (Habs (c :: before) after). reflexivity.
Qed.

(** X15.  The name offered for the shifted file: the first [.srt] of the
    given name becomes [-shifted.srt], wherever it stands; a name without
    [.srt] in these very letters is offered unchanged; a missing or empty
    name gives [shifted-subtitles.srt]. *)
Theorem outputFilename_spec :
  (forall before after,
      (forall before' after',
          before ++ lit ".srt" ++ after = before' ++ lit ".srt" ++ after' ->
          (length before <= length before')%nat) ->
      outputFilename (VString (before ++ lit ".srt" ++ after))
      = Normal (before ++ lit "-shifted.srt" ++ after)) /\
  (forall base,
      ~ In 46%N base ->
      outputFilename (VString (base ++ lit ".srt"))
      = Normal (base ++ lit "-shifted.srt")) /\
  (forall name,
      name <> [] ->
      (forall before after, name <> before ++ lit ".srt" ++ after) ->
      outputFilename (VString name) = Normal name) /\
  outputFilename VUndefined = Normal (lit "shifted-subtitles.srt") /\
  outputFilename (VString []) = Normal (lit "shifted-subtitles.srt").
Proof.
  assert (Hfirst : forall before after,
             (forall before' after',
                 before ++ lit ".srt" ++ after
                 = before' ++ lit ".srt" ++ after' ->
                 (length before <= length before')%nat) ->
             outputFilename (VString (before ++ lit ".srt" ++ after))
             = Normal (before ++ lit "-shifted.srt" ++ after)).
  { intros before after H. unfold outputFilename.
    replace (truthy (VString (before ++ lit ".srt" ++ after))) with true
      by (destruct before; reflexivity).
    rewrite replace_first by exact H. reflexivity. }
  split; [exact Hfirst|split; [|split; [|split; reflexivity]]].
  - intros base Hdot.
    rewrite <- (app_nil_r (lit ".srt")) at 1.
    rewrite Hfirst; [rewrite app_nil_r; reflexivity|].
    intros before' after' Heq.
    destruct (Nat.le_gt_cases (length base) (length before')) as [|Hlt];
      [assumption|exfalso].
    apply Hdot.
    apply (f_equal (fun l => nth (length before') l 0%N)) in Heq.
    rewrite app_nth1 in Heq by exact Hlt.
    change (lit ".srt" ++ after')
      with (46%N :: lit "srt" ++ after') in Heq.
    rewrite nth_middle in Heq. rewrite <- Heq. apply nth_In. exact Hlt.
  - intros name Hne Habs. unfold outputFilename.
    destruct name as [|c name]; [contradiction|]. cbn [truthy].
    rewrite replace_absent by exact Habs. reflexivity.
Qed.

Lemma outputFilename_spec_witness :
  ~ In 46%N (lit "movie") /\
  outputFilename (VString (lit "movie" ++ lit ".srt"))
  = Normal (lit "movie" ++ lit "-shifted.srt").
Proof.
  assert (H : ~ In 46%N (lit "movie")).
  { simpl. intros [E|[E|[E|[E|[E|[]]]]]]; discriminate E. }
  split; [exact H|].
  exact (proj1 (proj2 outputFilename_spec) (lit "movie") H).
Defined.

Lemma split_last sep s :
  exists init piece,
    split sep s = init ++ [piece] /\
    ~ In sep piece /\
    (init = [] -> s = piece) /\
    (init <> [] -> exists dir, s = dir ++ [sep] ++ piece).
Proof.
  induction s as [|c s (init & piece & Hsplit & Hno & Hone & Hmany)].
  - exists [], []. simpl. repeat split; auto. intros H. destruct H; reflexivity.
  - simpl. destruct (N.eqb_spec c sep) as [->|Hc].
    + exists ([] :: init), piece. rewrite Hsplit. repeat split; auto.
      * discriminate.
      * intros _. destruct init as [|p init].
        -- exists []. rewrite (Hone eq_refl). reflexivity.
        -- destruct Hmany as [dir ->]; [discriminate|].
           exists (sep :: dir). reflexivity.
    + rewrite Hsplit. destruct init as [|p init]; simpl.
      * exists [], (c :: piece). rewrite (Hone eq_refl).
        repeat split; auto.
        -- intros [E|E]; [congruence|contradiction].
        -- intros H. destruct H; reflexivity.
      * exists ((c :: p) :: init), piece. repeat split; auto.
        -- discriminate.
        -- intros _. destruct Hmany as [dir ->]; [discriminate|].
           exists (c :: dir). reflexivity.
Qed.

Lemma pop_split sep s :
  exists dir,
    s = dir ++ pop (split sep s) /\
    ~ In sep (pop (split sep s)) /\
    (dir = [] \/ exists d, dir = d ++ [sep]).
Proof.
  destruct (split_last sep s) as (init & piece & Hsplit & Hno & Hone & Hmany).
  unfold pop. rewrite Hsplit, last_last.
  destruct init as [|p init].
  - exists []. rewrite (Hone eq_refl). auto.
  - destruct Hmany as [dir ->]; [discriminate|].
    exists (dir ++ [sep]). rewrite <- app_assoc. eauto.
Qed.

(** X16.  The file name the main process shows for an opened file is what
    follows the last [/] or [\] of the path: it contains neither, and the
    path is a directory part, empty or ending in one of the two, followed by
    the name. *)
Theorem fileNameOf_spec :
  forall filePath,
    exists dir,
      filePath = dir ++ MainFiles.fileNameOf filePath /\
      ~ In 47%N (MainFiles.fileNameOf filePath) /\
      ~ In 92%N (MainFiles.fileNameOf filePath) /\
      (dir = [] \/ exists d, dir = d ++ [47%N] \/ dir = d ++ [92%N]).
Proof.
  intros filePath. unfold MainFiles.fileNameOf.
  destruct (pop_split 47%N filePath) as (dir1 & H1 & Hno1 & Hd1).
  remember (pop (split 47%N filePath)) as afterSlash.
  destruct (pop_split 92%N afterSlash) as (dir2 & H2 & Hno2 & Hd2).
  remember (pop (split 92%N afterSlash)) as name.
  exists (dir1 ++ dir2). repeat split.
  - rewrite <- app_assoc, <- H2. exact H1.
  - intros Hin. apply Hno1. rewrite H2. apply in_or_app. auto.
  - exact Hno2.
  - destruct Hd2 as [->|[d ->]].
    + rewrite app_nil_r. destruct Hd1 as [->|[d ->]]; eauto.
    + right. exists (dir1 ++ d). right. apply app_assoc.
Qed.

End FileNames.

(* ================================================================= *)
(** ** Files in and files out *)

Section Files.

Import JSLib.

Variable parseSync : jsstring -> completion (list Subtitle.node).
Variable stringifySync : list Subtitle.node -> jsstring.

Lemma mapi_from_length {A B} (f : A -> Z -> B) l :
  forall i, length (mapi_from f i l) = length l.
Proof. induction l; intros i; simpl; auto. Qed.

Lemma mapi_from_map {A B C} (f : A -> Z -> B) (h : B -> C) (h' : A -> C) l :
  (forall a i, h (f a i) = h' a) ->
  forall i, map h (mapi_from f i l) = map h' l.
Proof.
  intros H. induction l as [|a l IH]; intros i; simpl; [reflexivity|].
  rewrite H, IH. reflexivity.
Qed.

Lemma mapi_from_index {A} (f : A -> Z -> cue) l :
  (forall a i, index (f a i) = i + 1) ->
  forall i,
    map index (mapi_from f i l)
    = map (fun n => i + Z.of_nat n) (seq 1 (length l)).
Proof.
  intros H. induction l as [|a l IH]; intros i; simpl; [reflexivity|].
  rewrite H, IH. f_equal; try lia.
  rewrite <- (seq_shift (length l) 1), map_map.
  apply map_ext. intros n. lia.
Qed.

(** X17.  [parseSRT] keeps the cue nodes of the parse, in order, with their
    [start], [end] and [text], drops the other nodes, and numbers what it
    keeps 1, 2, 3, ... whatever numbers the file gave; when the library
    throws, so does [parseSRT]. *)
Theorem parseSRT_numbers_cues :
  forall content,
    (forall message,
        parseSync content = Throw message ->
        SrtFile.parseSRT parseSync content = Throw message) /\
    (forall nodes,
        parseSync content = Normal nodes ->
        exists cues,
          SrtFile.parseSRT parseSync content = Normal cues /\
          length cues = length (Subtitle.cueNodes nodes) /\
          map index cues = map Z.of_nat (seq 1 (length cues)) /\
          map start cues = map Subtitle.start (Subtitle.cueNodes nodes) /\
          map end_ cues = map Subtitle.end_ (Subtitle.cueNodes nodes) /\
          map text cues = map Subtitle.text (Subtitle.cueNodes nodes)).
Proof.
  intros content. unfold SrtFile.parseSRT. split.
  - intros message ->. reflexivity.
  - intros nodes ->. simpl. eexists. split; [reflexivity|].
    unfold mapi. rewrite mapi_from_length.
    repeat split; try (apply mapi_from_map; reflexivity).
    rewrite mapi_from_index by reflexivity.
    apply map_ext. intros n. lia.
Qed.

Lemma parseSRT_parsed nodes content :
  parseSync content = Normal nodes ->
  SrtFile.parseSRT parseSync content
  = Normal (mapi (fun data index =>
                    Cue (index + 1) (Subtitle.start data)
                        (Subtitle.end_ data) (Subtitle.text data))
                 (Subtitle.cueNodes nodes)).
Proof. unfold SrtFile.parseSRT. intros ->. reflexivity. Qed.

Lemma mapi_from_last {A B C} (f : A -> Z -> B) (h : B -> C) (h' : A -> C) l :
  (forall a i, h (f a i) = h' a) ->
  forall i b a, h b = h' a -> h (last (mapi_from f i l) b) = h' (last l a).
Proof.
  intros H. induction l as [|x l IH]; intros i b a Hb; [exact Hb|].
  destruct l as [|y l]; [apply H|].
  exact (IH (i + 1) b a Hb).
Qed.

Lemma nth_last_of {A} (l : list A) d d' :
  l <> [] -> nth (length l - 1) l d = last l d'.
Proof.
  induction l as [|a l IH]; [contradiction|]. intros _.
  destruct l as [|b l]; [reflexivity|].
  change (last (a :: b :: l) d') with (last (b :: l) d').
  rewrite <- IH by discriminate. simpl. rewrite Nat.sub_0_r.
  reflexivity.
Qed.

(** X18.  The handler of [POST /api/upload], which runs once the upload
    middleware has let the request through and is given what it left in
    [req.file], answers 200 exactly when there is a file, the library parses
    its content, and the parse has a cue node; without a file and without a
    cue node it answers 400, and 500 when the library throws.  (What the
    middleware refuses, a name not ending in [.srt] or a file above the size
    limit, never reaches the handler.) *)
Theorem api_upload_status :
  forall file,
    (ApiFiles.uploadStatus (ApiFiles.upload parseSync file) = 200 <->
     exists f nodes,
       file = Some f /\
       parseSync (ApiFiles.content f) = Normal nodes /\
       Subtitle.cueNodes nodes <> []) /\
    (file = None ->
     ApiFiles.uploadStatus (ApiFiles.upload parseSync file) = 400) /\
    (forall f nodes,
        file = Some f -> parseSync (ApiFiles.content f) = Normal nodes ->
        Subtitle.cueNodes nodes = [] ->
        ApiFiles.uploadStatus (ApiFiles.upload parseSync file) = 400) /\
    (forall f message,
        file = Some f -> parseSync (ApiFiles.content f) = Throw message ->
        ApiFiles.uploadStatus (ApiFiles.upload parseSync file) = 500).
Proof.
  intros file. unfold ApiFiles.upload, SrtFile.parseSRT, mapi.
  destruct file as [f|]; simpl;
    [destruct (parseSync (ApiFiles.content f)) as [nodes|message] eqn:Hp;
     simpl;
     [destruct (Subtitle.cueNodes nodes) as [|d ds] eqn:Hc; simpl|]|];
    (split; [split|split; [|split]]); intros;
    repeat match goal with
           | H : Some _ = Some _ |- _ => injection H as H; subst
           | H : exists _, _ |- _ => destruct H
           | H : _ /\ _ |- _ => destruct H
           end;
    try reflexivity; try discriminate; try congruence.
  exists f, nodes. rewrite Hc. repeat split; auto. discriminate.
Qed.

(** X19.  A successful answer of [POST /api/upload] carries the name of the
    file, as many cues as the parse has cue nodes, numbered from 1, with the
    times of the nodes and their formatted texts, and as duration the start
    of the first cue and the end of the last one (not the largest end). *)
Theorem api_upload_answer :
  forall f nodes data rest,
    parseSync (ApiFiles.content f) = Normal nodes ->
    Subtitle.cueNodes nodes = data :: rest ->
    exists duration cues,
      ApiFiles.upload parseSync (Some f)
      = ApiFiles.UploadResponse 200
          (ApiFiles.UploadOk (ApiFiles.originalname f)
                             (Z.of_nat (length (data :: rest)))
                             duration cues) /\
      Duration.startMs duration = Subtitle.start data /\
      Duration.endMs duration = Subtitle.end_ (last (data :: rest) data) /\
      Duration.start duration
      = SrtShifter.formatTimestamp (Duration.startMs duration) /\
      Duration.end_ duration
      = SrtShifter.formatTimestamp (Duration.endMs duration) /\
      map Wire.index cues = map Z.of_nat (seq 1 (length (data :: rest))) /\
      map Wire.startMs cues = map Subtitle.start (data :: rest) /\
      map Wire.endMs cues = map Subtitle.end_ (data :: rest) /\
      map Wire.text cues = map Subtitle.text (data :: rest) /\
      Forall (fun w =>
                Wire.start w = SrtShifter.formatTimestamp (Wire.startMs w) /\
                Wire.end_ w = SrtShifter.formatTimestamp (Wire.endMs w))
             cues.
Proof.
  intros f nodes data rest Hp Hc.
  unfold ApiFiles.upload. rewrite (parseSRT_parsed Hp), Hc.
  set (make := fun (data : Subtitle.cueData) (index : Z) =>
                 Cue (index + 1) (Subtitle.start data)
                     (Subtitle.end_ data) (Subtitle.text data)).
  unfold mapi. cbn [mapi_from].
  set (cues := make data 0 :: mapi_from make (0 + 1) rest).
  assert (Hcues : cues = mapi_from make 0 (data :: rest)) by reflexivity.
  assert (Hlen : length cues = length (data :: rest))
    by (rewrite Hcues; apply mapi_from_length).
  eexists. eexists. split; [rewrite Hlen; reflexivity|].
  cbn [Duration.startMs Duration.endMs Duration.start Duration.end_].
  rewrite !map_map. cbn [Api.toWire Wire.index Wire.startMs Wire.endMs Wire.text].
  repeat split.
  - rewrite <- Hlen.
    rewrite (@nth_last_of _ cues (make data 0) (make data 0))
      by (unfold cues; discriminate).
    rewrite Hcues. apply mapi_from_last; reflexivity.
  - rewrite Hcues, mapi_from_index by reflexivity.
    apply map_ext. intros n. lia.
  - rewrite Hcues. apply mapi_from_map. reflexivity.
  - rewrite Hcues. apply mapi_from_map. reflexivity.
  - rewrite Hcues. apply mapi_from_map. reflexivity.
  - apply Forall_forall. intros w Hw.
    apply in_map_iff in Hw as (c & <- & _). split; reflexivity.
Qed.

Lemma fromWire_toWire cues : map Api.fromWire (map Api.toWire cues) = cues.
Proof.
  rewrite map_map. rewrite <- (map_id cues) at 2.
  apply map_ext. intros [i s e t]. reflexivity.
Qed.

(** X20.  The file [POST /api/download] sends is made from [startMs],
    [endMs] and [text] of the cues alone: two requests whose cues agree on
    these three get the same answer, whatever their [index] and their
    formatted [start] and [end]. *)
Theorem api_download_uses_times_and_text :
  forall cues cues' filename,
    Forall2
      (fun w w' =>
         Wire.startMs w = Wire.startMs w' /\ Wire.endMs w = Wire.endMs w' /\
         Wire.text w = Wire.text w')
      cues cues' ->
    ApiFiles.download stringifySync (ApiFiles.DownloadBody (Some cues) filename)
    = ApiFiles.download stringifySync
        (ApiFiles.DownloadBody (Some cues') filename).
Proof.
  intros cues cues' filename H. unfold ApiFiles.download.
  cbn [ApiFiles.cues ApiFiles.filename].
  assert (Hbody : SrtFile.stringifySRT stringifySync (map Api.fromWire cues)
                  = SrtFile.stringifySRT stringifySync
                      (map Api.fromWire cues')).
  { unfold SrtFile.stringifySRT. cbv zeta. f_equal. rewrite !map_map.
    induction H as [|w w' l l' (Hs & He & Ht) _ IH]; [reflexivity|].
    cbn [map]. f_equal; [|exact IH].
    simpl. rewrite Hs, He, Ht. reflexivity. }
  destruct H as [|w w' l l' _ Hrest]; [reflexivity|].
  rewrite Hbody. reflexivity.
Qed.

(** X21.  Upload, full shift and download in a row, for a file that the
    upload middleware has handed to the handler, times and an offset small
    enough for the additions to be exact and a file name that the header
    accepts: the cues of a successful upload, sent to
    [POST /api/shift] without a mode and then to [POST /api/download], give
    as file what the library writes for the cue nodes of the parse with
    their times shifted and clamped, their texts unchanged and their
    settings dropped. *)
Theorem upload_shift_download :
  forall f nodes data rest offsetMs filename name,
    parseSync (ApiFiles.content f) = Normal nodes ->
    Subtitle.cueNodes nodes = data :: rest ->
    safe offsetMs ->
    Forall (fun d =>
              safe (Subtitle.start d) /\ safe (Subtitle.end_ d) /\
              safe (Subtitle.start d + offsetMs) /\
              safe (Subtitle.end_ d + offsetMs))
           (data :: rest) ->
    outputFilename filename = Normal name ->
    forallb ApiFiles.headerChar name = true ->
    exists count duration cues answer,
      ApiFiles.upload parseSync (Some f)
      = ApiFiles.UploadResponse 200
          (ApiFiles.UploadOk (ApiFiles.originalname f) count duration cues) /\
      ApiShift.shift (ApiShift.Body (Some (map Some cues)) (Some offsetMs)
                                    VUndefined VUndefined VUndefined)
      = Api.Response 200
          (Api.ShiftJson offsetMs (VString (lit "full")) answer) /\
      ApiFiles.download stringifySync
                        (ApiFiles.DownloadBody (Some answer) filename)
      = ApiFiles.DownloadFile
          (lit "application/x-subrip; charset=utf-8")
          (lit "attachment; filename=" ++ [34%N] ++ name ++ [34%N])
          (stringifySync (map (shifted_node offsetMs) (data :: rest))).
Proof.
  intros f nodes data rest offsetMs filename name Hp Hc Hoff Hsafe Hname Hhdr.
  unfold ApiFiles.upload. rewrite (parseSRT_parsed Hp), Hc.
  set (make := fun (data : Subtitle.cueData) (index : Z) =>
                 Cue (index + 1) (Subtitle.start data)
                     (Subtitle.end_ data) (Subtitle.text data)).
  unfold mapi. cbn [mapi_from].
  set (first := make data 0). set (others := mapi_from make (0 + 1) rest).
  do 4 eexists. split; [reflexivity|].
  assert (Hexact : Forall (fun c => safe (start c + offsetMs) /\
                                    safe (end_ c + offsetMs))
                          (first :: others)).
  { change (first :: others) with (mapi_from make 0 (data :: rest)).
    generalize 0. generalize (data :: rest) Hsafe. clear.
    intros l H. induction H as [|d l (_ & _ & Hs & He) _ IH]; intros i;
      cbn [mapi_from]; constructor; auto. }
  unfold ApiShift.shift, ApiShift.shift_try, ApiFiles.download.
  cbn [ApiShift.cues ApiShift.offsetMs ApiShift.mode ApiShift.startTime
       ApiShift.endTime ApiFiles.cues ApiFiles.filename].
  rewrite parsedCuesOf_some.
  cbn [map].
  cbn [bind strict_eq_lit Api.modeOrFull truthy].
  change (Api.toWire first :: map Api.toWire others)
    with (map Api.toWire (first :: others)).
  rewrite fromWire_toWire, (shiftTime64_exact _ _ _ Hexact).
  rewrite Hname. cbv zeta.
  split; [reflexivity|].
  rewrite shiftTime_full_map. cbn [map].
  replace (forallb ApiFiles.headerChar
             (lit "attachment; filename=" ++ [34%N] ++ name ++ [34%N]))
    with true
    by (rewrite !forallb_app, Hhdr; reflexivity).
  f_equal.
  unfold SrtFile.stringifySRT. cbv zeta. f_equal.
  change (Api.fromWire (Api.toWire ?c)) with c. cbn [map]. f_equal.
  rewrite !map_map. unfold others.
  apply (@mapi_from_map _ _ _ make _ (shifted_node offsetMs)).
  reflexivity.
Qed.

(** X22.  A file dropped on the desktop window is answered as the handler
    of [POST /api/upload] answers the same file once the upload middleware
    has handed it over in [req.file]: same name, count, duration and cues
    when one of them succeeds.  (The checks of the middleware on the name and
    the size come before the web handler and are not part of the
    comparison.)  A file chosen in the dialog is treated as a dropped file
    named after the last segment of its path; when the dialog is canceled or
    returns no path nothing is read. *)
Theorem desktop_upload_agrees :
  forall dialog readFile,
    (forall name content filename count duration cues,
        ApiFiles.upload parseSync
                        (Some (ApiFiles.UploadedFile name content))
        = ApiFiles.UploadResponse 200
            (ApiFiles.UploadOk filename count duration cues) <->
        MainFiles.uploadFile parseSync dialog readFile
                             (Some (MainFiles.FileData content name))
        = MainFiles.UploadDone filename count duration cues) /\
    (MainFiles.canceled dialog = true \/ MainFiles.filePaths dialog = [] ->
     MainFiles.uploadFile parseSync dialog readFile None
     = MainFiles.UploadCanceled) /\
    (forall filePath others content,
        MainFiles.canceled dialog = false ->
        MainFiles.filePaths dialog = filePath :: others ->
        readFile filePath = Normal content ->
        MainFiles.uploadFile parseSync dialog readFile None
        = MainFiles.uploadFile parseSync dialog readFile
            (Some (MainFiles.FileData content
                                      (MainFiles.fileNameOf filePath)))).
Proof.
  intros dialog readFile. split; [|split].
  - intros name content filename count duration cues.
    unfold ApiFiles.upload, MainFiles.uploadFile, MainFiles.uploadFile_try,
      MainFiles.parsed.
    cbn [ApiFiles.content ApiFiles.originalname
         MainFiles.content MainFiles.filename].
    destruct (SrtFile.parseSRT parseSync content) as [[|c cs]|message];
      cbn [bind].
    + split; discriminate.
    + split; intros [= <- <- <- <-]; reflexivity.
    + split; [discriminate|]. destruct (String.eqb message ""); discriminate.
  - intros H. unfold MainFiles.uploadFile, MainFiles.uploadFile_try.
    destruct H as [-> | ->]; [reflexivity|].
    rewrite orb_true_r. reflexivity.
  - intros filePath others content Hc Hp Hr.
    unfold MainFiles.uploadFile, MainFiles.uploadFile_try.
    rewrite Hc, Hp. cbn [length Nat.eqb orb nth]. rewrite Hr. reflexivity.
Qed.

End Files.

Lemma api_upload_answer_witness :
  sample_parseSync (ApiFiles.content sample_file) = Normal sample_nodes /\
  exists duration cues,
    ApiFiles.upload sample_parseSync (Some sample_file)
    = ApiFiles.UploadResponse 200
        (ApiFiles.UploadOk (lit "movie.srt") 2 duration cues) /\
    Duration.endMs duration = 23000.
Proof.
  split; [reflexivity|].
  destruct (@api_upload_answer sample_parseSync sample_file sample_nodes
              (Subtitle.CueData 1000 3000 (lit "one") None)
              [Subtitle.CueData 20000 23000 (lit "two") (Some (lit "X1:40"))]
              eq_refl eq_refl)
    as (duration & cues & Hup & _ & Hend & _).
  exists duration, cues. split; [exact Hup|exact Hend].
Defined.

Lemma api_download_uses_times_and_text_witness :
  ApiFiles.download sample_stringifySync
                    (ApiFiles.DownloadBody (Some three_wire_cues) VUndefined)
  = ApiFiles.download sample_stringifySync
      (ApiFiles.DownloadBody
         (Some (map (fun w => Wire.Cue 7 (lit "later") (lit "never")
                                       (Wire.startMs w) (Wire.endMs w)
                                       (Wire.text w))
                    three_wire_cues))
         VUndefined).
Proof.
  apply api_download_uses_times_and_text.
  repeat constructor.
Defined.

Lemma upload_shift_download_witness :
  outputFilename (VString (lit "movie.srt"))
  = Normal (lit "movie-shifted.srt") /\
  forallb ApiFiles.headerChar (lit "movie-shifted.srt") = true /\
  exists count duration cues answer,
    ApiFiles.upload sample_parseSync (Some sample_file)
    = ApiFiles.UploadResponse 200
        (ApiFiles.UploadOk (lit "movie.srt") count duration cues) /\
    ApiShift.shift (ApiShift.Body (Some (map Some cues)) (Some (-1500))
                                  VUndefined VUndefined VUndefined)
    = Api.Response 200 (Api.ShiftJson (-1500) (VString (lit "full")) answer) /\
    ApiFiles.download sample_stringifySync
                      (ApiFiles.DownloadBody (Some answer)
                                             (VString (lit "movie.srt")))
    = ApiFiles.DownloadFile
        (lit "application/x-subrip; charset=utf-8")
        (lit "attachment; filename=" ++ [34%N] ++ lit "movie-shifted.srt"
             ++ [34%N])
        (lit "onetwo").
Proof.
  split; [reflexivity|split; [reflexivity|]].
  assert (Hoff : safe (-1500)) by (unfold safe, MAX_SAFE_INTEGER; lia).
  assert (Hsafe :
            Forall (fun d =>
                      safe (Subtitle.start d) /\ safe (Subtitle.end_ d) /\
                      safe (Subtitle.start d + -1500) /\
                      safe (Subtitle.end_ d + -1500))
                   [Subtitle.CueData 1000 3000 (lit "one") None;
                    Subtitle.CueData 20000 23000 (lit "two")
                                     (Some (lit "X1:40"))]).
  { repeat constructor; unfold safe, MAX_SAFE_INTEGER; simpl; lia. }
  exact (@upload_shift_download sample_parseSync sample_stringifySync
           sample_file sample_nodes
           (Subtitle.CueData 1000 3000 (lit "one") None)
           [Subtitle.CueData 20000 23000 (lit "two") (Some (lit "X1:40"))]
           (-1500) (VString (lit "movie.srt")) (lit "movie-shifted.srt")
           eq_refl eq_refl Hoff Hsafe eq_refl eq_refl).
Defined.

(* ================================================================= *)
(** ** The codec and the shift handlers on the program's numbers *)

Section Program.















(** X10.  For a request body whose [cues], when an array, holds cue objects
    or [null], [POST /api/shift] answers with status 200, 400 or 500: with
    200 exactly when the request carries a non-empty array of cue objects
    and a numeric offset and, in partial mode, a window start that does not
    parse higher than the window end; with 500 exactly when it carries a
    numeric offset and an array in which an element is [null]. *)
Theorem api_shift_accepts :
  forall req,
    (Api.status (ApiShift.shift req) = 200 \/
     Api.status (ApiShift.shift req) = 400 \/
     Api.status (ApiShift.shift req) = 500) /\
    (Api.status (ApiShift.shift req) = 200 <->
     (exists cues, ApiShift.cues req = Some (map Some cues) /\ cues <> []) /\
     (exists offsetMs, ApiShift.offsetMs req = Some offsetMs) /\
     (strict_eq_lit (ApiShift.mode req) (lit "partial") = true ->
      Binary64.parseTimestamp (ApiShift.startTime req)
      <= Binary64.parseTimestamp (ApiShift.endTime req))) /\
    (Api.status (ApiShift.shift req) = 500 <->
     (exists cues, ApiShift.cues req = Some cues /\ In None cues) /\
     (exists offsetMs, ApiShift.offsetMs req = Some offsetMs)).
Proof.
  intros [cues offsetMs mode startTime endTime].
  unfold ApiShift.shift, ApiShift.shift_try.
  cbn [ApiShift.mode ApiShift.startTime ApiShift.endTime ApiShift.cues
       ApiShift.offsetMs].
  destruct cues as [[|c cues]|].
  - cbn [Api.status]. split; [right; left; reflexivity|]. split; split.
    + discriminate.
    + intros [[ws [[= Hws] Hne]] _]. destruct ws; [contradiction|discriminate].
    + discriminate.
    + intros [[l [[= <-] []]] _].
  - destruct offsetMs as [k|].
    2:{ cbn [Api.status]. split; [right; left; reflexivity|]. split; split.
        - discriminate.
        - intros (_ & [? [=]] & _).
        - discriminate.
        - intros (_ & [? [=]]). }
    destruct (parsedCuesOf_cases (c :: cues))
      as [(ws & Heq & Hno)|(Hin & message & Hthrow)].
    + rewrite Heq, parsedCuesOf_some. cbn [bind].
      assert (Hne : ws <> []) by (intros ->; discriminate).
      assert (H500 : (exists l, Some (map Some ws) = Some l /\ In None l) /\
                     (exists o, Some k = Some o) -> False).
      { intros [[l [[= <-] Hl]] _]. rewrite <- Heq in Hl. contradiction. }
      destruct (strict_eq_lit mode (lit "partial")).
      * destruct (Binary64.parseTimestamp startTime
                  >? Binary64.parseTimestamp endTime) eqn:Hgt;
          cbn [Api.status].
        -- apply Z.gtb_lt in Hgt. split; [right; left; reflexivity|].
           split; split.
           ++ discriminate.
           ++ intros (_ & _ & Hw). specialize (Hw eq_refl). lia.
           ++ discriminate.
           ++ intros H. destruct (H500 H).
        -- rewrite Z.gtb_ltb in Hgt. apply Z.ltb_ge in Hgt.
           split; [left; reflexivity|]. split; split.
           ++ intros _. split; [eauto|]. split; [eauto|]. intros _. exact Hgt.
           ++ reflexivity.
           ++ discriminate.
           ++ intros H. destruct (H500 H).
      * cbn [Api.status]. split; [left; reflexivity|]. split; split.
        -- intros _. split; [eauto|]. split; [eauto|]. discriminate.
        -- reflexivity.
        -- discriminate.
        -- intros H. destruct (H500 H).
    + rewrite Hthrow. cbn [Api.status].
      split; [right; right; reflexivity|]. split; split.
      * discriminate.
      * intros [[ws [[= Hws] _]] _]. rewrite Hws in Hin.
        apply in_map_iff in Hin as (w & Hw & _). discriminate.
      * intros _. split; eauto.
      * reflexivity.
  - cbn [Api.status]. split; [right; left; reflexivity|]. split; split.
    + discriminate.
    + intros [[? [[=] _]] _].
    + discriminate.
    + intros [[? [[=] _]] _].
Qed.

Lemma api_shift_accepts_witness :
  Api.status (ApiShift.shift inverted_request) = 400 /\
  Api.status (ApiShift.shift null_cue_request) = 500 /\
  Api.status
    (ApiShift.shift
       (ApiShift.Body (Some (map Some three_wire_cues)) (Some 500)
                      (VString (lit "partial"))
                      (VString (lit "10")) (VString (lit "00:00:30"))))
  = 200.
Proof.
  split; [reflexivity|split].
  - apply (proj2 (proj2 (api_shift_accepts null_cue_request))).
    split; [exists [None]; split; [reflexivity|left; reflexivity]|].
    exists 5. reflexivity.
  - apply (proj1 (proj2 (api_shift_accepts _))).
    split; [exists three_wire_cues; split; [reflexivity|discriminate]|].
    split; [exists 500; reflexivity|].
    intros _. vm_compute. discriminate.
Defined.

End Program.
